(** * ccoin: consensus arithmetic and wire-protocol framing

    A shallow embedding of [lib/protocol/consensus.js] (compact targets,
    proof-of-work check, block subsidy, version bits) and of
    [lib/net/parser.js] (the packet framing state machine), together with
    the properties the specification states about them.

    JavaScript Numbers that hold integers are modelled as [Z]; the 32-bit
    operators are written out with their wrap-around.  Buffers are
    [list byte]. *)

From Stdlib.Strings Require Import Byte Ascii String.
From Stdlib Require Import ZArith List Lia Bool.
Import ListNotations.
Open Scope Z_scope.

(** ** JavaScript 32-bit integer operators *)

Module JS.

Definition ToUint32 (x : Z) : Z := x mod 2 ^ 32.

Definition ToInt32 (x : Z) : Z := (x + 2 ^ 31) mod 2 ^ 32 - 2 ^ 31.

(** The shift count of [<<], [>>] and [>>>] is taken modulo 32. *)
Definition shift_count (n : Z) : Z := ToUint32 n mod 32.

(** [a & b] *)
Definition and (a b : Z) : Z := Z.land (ToInt32 a) (ToInt32 b).

(** [a | b] *)
Definition or (a b : Z) : Z := Z.lor (ToInt32 a) (ToInt32 b).

(** [a << n] *)
Definition shl (a n : Z) : Z := ToInt32 (Z.shiftl (ToInt32 a) (shift_count n)).

(** [a >> n] *)
Definition sar (a n : Z) : Z := Z.shiftr (ToInt32 a) (shift_count n).

(** [a >>> n] *)
Definition shr (a n : Z) : Z := Z.shiftr (ToUint32 a) (shift_count n).

End JS.

(** ** Big numbers *)

(** Modelled from the spec: [lib/crypto/bn] (the bn.js big-number class) is
    not among the sources.  The spec asks for an arbitrary-precision integer
    with byte length, left and right shift, sign, and little-endian
    conversion; a [BN] is the integer it denotes, and the shifts act on the
    magnitude and keep the sign, as the unsigned shifts of bn.js do. *)

Module BN.

Definition t := Z.

(** [new BN(n)] for a Number [n] *)
Definition of_number (n : Z) : t := n.

(** [new BN(buf, 'le')]: the buffer read as a little-endian magnitude *)
Fixpoint of_le (buf : list byte) : t :=
  match buf with
  | [] => 0
  | b :: rest => Z.of_N (Byte.to_N b) + 256 * of_le rest
  end.

Definition isZero (a : t) : bool := a =? 0.

Definition isNeg (a : t) : bool := a <? 0.

Definition bitLength (a : t) : Z :=
  if a =? 0 then 0 else Z.log2 (Z.abs a) + 1.

(** [Math.ceil(this.bitLength() / 8)] *)
Definition byteLength (a : t) : Z := (bitLength a + 7) / 8.

(** [toNumber()]: the value as a Number (the callers below stay far
    under the 53 bits at which bn.js refuses). *)
Definition toNumber (a : t) : Z := a.

Definition ushrn (a : t) (bits : Z) : t :=
  Z.sgn a * Z.shiftr (Z.abs a) bits.

Definition iushln (a : t) (bits : Z) : t :=
  Z.sgn a * Z.shiftl (Z.abs a) bits.

Definition ineg (a : t) : t := - a.

Definition gt (a b : t) : bool := a >? b.

End BN.

(** ** Consensus constants *)

Definition COIN : Z := 100000000.
Definition MAX_MONEY : Z := 115000000 * COIN.
Definition BASE_REWARD : Z := 50 * COIN.
Definition VERSION_TOP_BITS : Z := 0x20000000.
Definition VERSION_TOP_MASK : Z := 0xe0000000.

(** ** Compact targets *)

Definition fromCompact (compact : Z) : BN.t :=
  if compact =? 0 then BN.of_number 0
  else
    let exponent := JS.shr compact 24 in
    let negative := JS.and (JS.shr compact 23) 1 in
    let mantissa := JS.and compact 0x7fffff in
    let num :=
      if exponent <=? 3
      then BN.of_number (JS.shr mantissa (8 * (3 - exponent)))
      else BN.iushln (BN.of_number mantissa) (8 * (exponent - 3)) in
    if negative =? 0 then num else BN.ineg num.

Definition toCompact (num : BN.t) : Z :=
  if BN.isZero num then 0
  else
    let exponent := BN.byteLength num in
    let mantissa :=
      if exponent <=? 3
      then JS.shl (BN.toNumber num) (8 * (3 - exponent))
      else BN.toNumber (BN.ushrn num (8 * (exponent - 3))) in
    let '(mantissa, exponent) :=
      if JS.and mantissa 0x800000 =? 0
      then (mantissa, exponent)
      else (JS.sar mantissa 8, exponent + 1) in
    let compact := JS.or (JS.shl exponent 24) mantissa in
    let compact :=
      if BN.isNeg num then JS.or compact 0x800000 else compact in
    JS.shr compact 0.

(** ** Proof of work *)

(** The fields of a network descriptor that the code below reads. *)
Record Network : Type := mkNetwork {
  magic : Z;
  pow_limit : BN.t;
  keccakPow_limit : BN.t
}.

(** What [verifyPOW] asks of a block: [block.hasNewPowVersion()]. *)
Record AbstractBlock : Type := mkBlock {
  hasNewPowVersion : bool
}.

Definition verifyPOW (network : Network) (block : AbstractBlock)
    (hash : list byte) (bits : Z) : bool :=
  let target := fromCompact bits in
  let powLimit :=
    if hasNewPowVersion block
    then keccakPow_limit network
    else pow_limit network in
  if BN.isNeg target || BN.isZero target then false
  else
    let num := BN.of_le hash in
    if BN.gt num target then false else true.

(** ** Block subsidy *)

(** [getReward(height, interval)]; [None] is the failed assertion on a
    negative height.  The second argument may be any value. *)
Definition getReward {I : Type} (height : Z) (interval : I) : option Z :=
  if negb (height >=? 0) then None
  else
    let subsidy := 0 * COIN in
    let subsidy := if height <? 2 then 12226641 * COIN else subsidy in
    let subsidy :=
      if (height <=? 6765) && (height >? 1) then 1 * COIN else subsidy in
    let subsidy :=
      if (height <=? 10946) && (height >? 6765) then 1 * COIN else subsidy in
    let subsidy :=
      if (height <=? 17711) && (height >? 10946) then 2 * COIN else subsidy in
    let subsidy :=
      if (height <=? 28657) && (height >? 17711) then 3 * COIN else subsidy in
    let subsidy :=
      if (height <=? 46368) && (height >? 28657) then 5 * COIN else subsidy in
    let subsidy :=
      if (height <=? 75025) && (height >? 46368) then 8 * COIN else subsidy in
    let subsidy :=
      if (height <=? 121393) && (height >? 75025) then 13 * COIN else subsidy in
    let subsidy :=
      if (height <=? 196418) && (height >? 121393) then 21 * COIN else subsidy in
    let subsidy :=
      if (height <=? 317811) && (height >? 196148) then 34 * COIN else subsidy in
    let subsidy :=
      if (height <=? 514229) && (height >? 317811) then 55 * COIN else subsidy in
    let subsidy :=
      if (height <=? 832040) && (height >? 514229) then 34 * COIN else subsidy in
    let subsidy :=
      if (height <=? 1346269) && (height >? 832040) then 21 * COIN else subsidy in
    let subsidy :=
      if (height <=? 2178309) && (height >? 1346269) then 13 * COIN else subsidy in
    let subsidy :=
      if (height <=? 3524578) && (height >? 2178309) then 8 * COIN else subsidy in
    let subsidy :=
      if (height <=? 5702887) && (height >? 3524578) then 5 * COIN else subsidy in
    let subsidy :=
      if (height <=? 9227465) && (height >? 5702887) then 3 * COIN else subsidy in
    let subsidy :=
      if (height <=? 14930352) && (height >? 9227465) then 2 * COIN else subsidy in
    let subsidy :=
      if (height <=? 24157817) && (height >? 14930352) then 1 * COIN else subsidy in
    Some subsidy.

(** ** Version bits *)

Definition hasBit (version bit : Z) : bool :=
  let TOP_MASK := VERSION_TOP_MASK in
  let TOP_BITS := VERSION_TOP_BITS in
  let bits := JS.shr (JS.and version TOP_MASK) 0 in
  let mask := JS.shl 1 bit in
  (bits =? TOP_BITS) && negb (JS.and version mask =? 0).

(** ** Packet parser *)

(** [data[i]], read inside the buffer *)
Definition byte_at (data : list byte) (i : nat) : Z :=
  Z.of_N (Byte.to_N (nth i data x00)).

(** [data.readUInt32LE(off, true)], read inside the buffer (the parser
    reads 24-byte headers and 32-byte digests) *)
Definition readUInt32LE (data : list byte) (off : nat) : Z :=
  byte_at data off
  + 256 * byte_at data (off + 1)
  + 65536 * byte_at data (off + 2)
  + 16777216 * byte_at data (off + 3).

(** One character of [data.toString('ascii', ...)]: the high bit is dropped. *)
Definition ascii7 (b : byte) : byte :=
  match Byte.of_N (N.land (Byte.to_N b) 127) with
  | Some c => c
  | None => x00
  end.

(** [data.toString('ascii', from, to)] *)
Definition toString_ascii (data : list byte) (from to : nat) : string :=
  string_of_list_byte (map ascii7 (firstn (to - from) (skipn from data))).

(** [for (; data[i + 4] !== 0 && i < 12; i++);] started at [i], with [n]
    iterations left to run; twelve are enough from [i = 0]. *)
Fixpoint cmd_scan (n : nat) (data : list byte) (i : nat) : nat :=
  match n with
  | O => i
  | S n' =>
      if negb (byte_at data (i + 4) =? 0) && (i <? 12)%nat
      then cmd_scan n' data (i + 1)%nat
      else i
  end.

Record Header : Type := mkHeader {
  cmd : string;
  size : Z;
  checksum : Z
}.

Record Parser : Type := mkParser {
  network : Network;
  pending : list (list byte);
  total : Z;
  waiting : Z;
  header : option Header
}.

(** [new Parser(network)], the descriptor already resolved *)
Definition Parser_new (net : Network) : Parser :=
  {| network := net; pending := []; total := 0; waiting := 24;
     header := None |}.

Definition set_waiting (p : Parser) (w : Z) : Parser :=
  {| network := network p; pending := pending p; total := total p;
     waiting := w; header := header p |}.

Definition set_header (p : Parser) (h : option Header) : Parser :=
  {| network := network p; pending := pending p; total := total p;
     waiting := waiting p; header := h |}.

(** The queue and its byte count replaced, the rest kept. *)
Definition set_queue (p : Parser) (q : list (list byte)) (n : Z) : Parser :=
  {| network := network p; pending := q; total := n;
     waiting := waiting p; header := header p |}.

(** The inner loop of [feed]: fill a chunk of [need] bytes from the head of
    the queue.  A buffer copied whole is shifted off; one copied in part is
    replaced by its remaining slice, and the chunk is then full.  [None] is
    the TypeError of reading [pending[0]] on an empty queue. *)
Fixpoint take_chunk (need : nat) (pending : list (list byte)) {struct pending}
    : option (list byte * list (list byte)) :=
  match need with
  | O => Some ([], pending)
  | S _ =>
      match pending with
      | [] => None
      | buf :: rest =>
          let len := Nat.min (length buf) need in
          if (len =? length buf)%nat
          then
            match take_chunk (need - len) rest with
            | Some (chunk, pending') => Some (firstn len buf ++ chunk, pending')
            | None => None
            end
          else Some (firstn len buf, skipn len buf :: rest)
      end
  end.

(** Which branch a call of [parse] took (a ghost label; the code keeps no
    such record). *)
Inductive Step : Type :=
| HeaderAccepted
| HeaderRejected
| PayloadDone.

(** How a call of [feed] ended: it returned, an exception left it, or the
    turns counted for its loop ran out (the loop would run on). *)
Inductive Status : Type :=
| Returned
| Threw
| OutOfFuel.

(** ** Reference notions used in the statements *)

(** The little-endian reading of a byte string: byte [i] weighs
    [256 ^ i]. *)
Definition le_value (buf : list byte) : Z :=
  fold_right Z.add 0
    (map (fun i => byte_at buf i * 256 ^ Z.of_nat i) (seq 0 (length buf))).

(** Whether the top bit of the leading byte of [x] is set. *)
Definition leading_bit (x : Z) : bool :=
  Z.testbit x (8 * BN.byteLength x - 1).

(** The exponent of the compact form of [x]: its byte length, one more
    when [leading_bit x] (the mantissa keeps its sign bit clear). *)
Definition compact_exponent (x : Z) : Z :=
  BN.byteLength x + (if leading_bit x then 1 else 0).

(** The low bits of [x] that its three-byte mantissa cannot hold. *)
Definition dropped_bits (x : Z) : Z := 8 * Z.max 0 (compact_exponent x - 3).

(** The mantissa [toCompact] starts from: the three leading bytes of
    [x]. *)
Definition leading_bytes (x : Z) : Z :=
  let e := BN.byteLength x in
  if e <=? 3 then x * 2 ^ (8 * (3 - e)) else x / 2 ^ (8 * (e - 3)).

(** The magnitude a 32-bit compact number denotes: its low 23 bits,
    shifted by its top byte. *)
Definition compact_magnitude (c : Z) : Z :=
  let e := c / 2 ^ 24 in
  let m := c mod 2 ^ 23 in
  if e <=? 3 then m / 2 ^ (8 * (3 - e)) else m * 2 ^ (8 * (e - 3)).

(** The subsidy as a table read top down, first match wins, with the
    bounds the code has. *)
Definition subsidy_schedule (h : Z) : Z :=
  if h <=? 1 then 12226641 * COIN
  else if h <=? 6765 then 1 * COIN
  else if h <=? 10946 then 1 * COIN
  else if h <=? 17711 then 2 * COIN
  else if h <=? 28657 then 3 * COIN
  else if h <=? 46368 then 5 * COIN
  else if h <=? 75025 then 8 * COIN
  else if h <=? 121393 then 13 * COIN
  else if h <=? 196148 then 21 * COIN
  else if h <=? 317811 then 34 * COIN
  else if h <=? 514229 then 55 * COIN
  else if h <=? 832040 then 34 * COIN
  else if h <=? 1346269 then 21 * COIN
  else if h <=? 2178309 then 13 * COIN
  else if h <=? 3524578 then 8 * COIN
  else if h <=? 5702887 then 5 * COIN
  else if h <=? 9227465 then 3 * COIN
  else if h <=? 14930352 then 2 * COIN
  else if h <=? 24157817 then 1 * COIN
  else 0.

(** The subsidy of the block at height [h], nothing where [getReward]
    fails. *)
Definition subsidy_at (h : Z) : Z :=
  match getReward h tt with
  | Some r => r
  | None => 0
  end.

(** Paying one more block: the amount issued so far and the next
    height. *)
Definition issue_step (st : Z * Z) : Z * Z :=
  (fst st + subsidy_at (snd st), snd st + 1).

(** The sum of the subsidies of the blocks at heights [0 .. n - 1]. *)
Definition issued (n : N) : Z := fst (N.iter n issue_step (0, 0)).

(** ** Sample values *)

Definition sample_network : Network :=
  {| magic := 0xd9b4bef9;
     pow_limit := fromCompact 0x1d00ffff;
     keccakPow_limit := fromCompact 0x1e00ffff |}.

(** A stand-in for [digest.hash256]: 32 bytes, the first the length of the
    data modulo 256. *)
Definition sample_hash256 (data : list byte) : list byte :=
  match Byte.of_N (N.of_nat (length data) mod 256) with
  | Some b => b
  | None => x00
  end :: repeat x00 31.

(** A stand-in for [packets.fromRaw]: the command and the payload as they
    are. *)
Definition sample_fromRaw (cmd : string) (data : list byte)
    : (string * list byte) + unit :=
  inl (cmd, data).

(** A header for [sample_network] with command [ping], the four bytes of
    the size and the first byte of the checksum. *)
Definition sample_header (size : list byte) (sum : byte) : list byte :=
  [xf9; xbe; xb4; xd9] ++
  ["p"%byte; "i"%byte; "n"%byte; "g"%byte;
   x00; x00; x00; x00; x00; x00; x00; x00] ++
  size ++ [sum; x00; x00; x00].

(** A value for [common.MAX_MESSAGE]: four million bytes, as in bcoin,
    from which ccoin derives. *)
Definition sample_MAX_MESSAGE : Z := 4000000.

Section PacketParser.

(** [common.MAX_MESSAGE], [digest.hash256] and [packets.fromRaw] live in
    modules that are not among the sources; they are parameters here.
    [fromRaw] either decodes a packet or throws. *)
Variable MAX_MESSAGE : Z.
Variable Packet : Type.
Variable Exn : Type.
Variable hash256 : list byte -> list byte.
Variable fromRaw : string -> list byte -> Packet + Exn.

(** The errors the parser emits, by their message. *)
Inductive Reason : Type :=
| InvalidMagic (magic : Z)
| UnterminatedCommand
| OversizePacket (size : Z)
| InvalidChecksum (checksum : Z)
| DecodeError (e : Exn).

(** [this.emit('packet', ...)] and [this.emit('error', ...)] *)
Inductive Notification : Type :=
| packet (payload : Packet)
| error (reason : Reason).

Definition parseHeader (p : Parser) (data : list byte)
    : Parser * option Header * list Notification :=
  let network_magic := magic (network p) in
  let magic := readUInt32LE data 0 in
  if negb (magic =? network_magic)
  then (p, None, [error (InvalidMagic magic)])
  else
    let i := cmd_scan 12 data 0 in
    if (i =? 12)%nat
    then (p, None, [error UnterminatedCommand])
    else
      let cmd := toString_ascii data 4 (4 + i) in
      let size := readUInt32LE data 16 in
      if size >? MAX_MESSAGE
      then (set_waiting p 24, None, [error (OversizePacket size)])
      else
        let p := set_waiting p size in
        let checksum := readUInt32LE data 20 in
        (p, Some (mkHeader cmd size checksum), []).

(** [parse(data)]; [None] is the failed assertion on the chunk length. *)
Definition parse (p : Parser) (data : list byte)
    : option (Parser * list Notification * Step) :=
  if negb (Z.of_nat (length data) <=? MAX_MESSAGE) then None
  else
    match header p with
    | None =>
        let '(p, h, out) := parseHeader p data in
        Some (set_header p h, out,
              match h with
              | Some _ => HeaderAccepted
              | None => HeaderRejected
              end)
    | Some hd =>
        let header_checksum := checksum hd in
        let checksum := readUInt32LE (hash256 data) 0 in
        if negb (checksum =? header_checksum)
        then
          Some (set_header (set_waiting p 24) None,
                [error (InvalidChecksum checksum)], PayloadDone)
        else
          match fromRaw (cmd hd) data with
          | inr e =>
              Some (set_header (set_waiting p 24) None,
                    [error (DecodeError e)], PayloadDone)
          | inl payload =>
              Some (set_header (set_waiting p 24) None,
                    [packet payload], PayloadDone)
          end
    end.

(** What a call of [feed] leaves behind: the parser, the notifications in
    the order emitted, the branches [parse] took, and how it ended. *)
Record Run : Type := mkRun {
  final : Parser;
  emitted : list Notification;
  steps : list Step;
  status : Status
}.

(** How one turn of the outer loop of [feed] ends: [parse] ran to its
    end, or an exception left the parser as it was when raised. *)
Inductive Turn : Type :=
| Took (p : Parser) (out : list Notification) (s : Step)
| Raised (p : Parser).

(** One turn of the outer loop of [feed], taken when
    [total >= waiting].  [Buffer.allocUnsafe] refuses a negative size; the
    copy loop fails on a queue that ran empty; the byte count is updated
    before [parse] is called. *)
Definition iterate (p : Parser) : Turn :=
  if waiting p <? 0 then Raised p
  else
    match take_chunk (Z.to_nat (waiting p)) (pending p) with
    | None => Raised (set_queue p [] (total p))
    | Some (chunk, pending') =>
        let p := set_queue p pending' (total p - Z.of_nat (length chunk)) in
        match parse p chunk with
        | Some (p', out, s) => Took p' out s
        | None => Raised p
        end
    end.

(** [while (this.total >= this.waiting) ...] *)
Fixpoint feed_loop (fuel : nat) (p : Parser) : Run :=
  match fuel with
  | O => mkRun p [] [] OutOfFuel
  | S fuel' =>
      if total p >=? waiting p
      then
        match iterate p with
        | Raised p' => mkRun p' [] [] Threw
        | Took p' out s =>
            let r := feed_loop fuel' p' in
            mkRun (final r) (out ++ emitted r) (s :: steps r) (status r)
        end
      else mkRun p [] [] Returned
  end.

(** [this.total += data.length; this.pending.push(data);] *)
Definition push (p : Parser) (data : list byte) : Parser :=
  set_queue p (pending p ++ [data]) (total p + Z.of_nat (length data)).

(** Turns that surely exhaust the queue: a header turn takes 24 bytes and
    a payload turn is followed by a header turn. *)
Definition turns (p : Parser) : nat :=
  (2 * Z.to_nat (total p) + 2)%nat.

Definition drain (p : Parser) : Run := feed_loop (turns p) p.

Definition feed (p : Parser) (data : list byte) : Run :=
  drain (push p data).

(** A sequence of [feed] calls on one parser, stopped by the first call
    that does not return; the notifications and the branch labels
    accumulate over the calls. *)
Fixpoint feed_all (p : Parser) (pieces : list (list byte)) : Run :=
  match pieces with
  | [] => mkRun p [] [] Returned
  | data :: rest =>
      let r := feed p data in
      match status r with
      | Returned =>
          let r' := feed_all (final r) rest in
          mkRun (final r') (emitted r ++ emitted r')
            (steps r ++ steps r') (status r')
      | _ => r
      end
  end.

(** ** Parser states *)

(** The bytes a parser holds, in the order received. *)
Definition queued (p : Parser) : list byte := concat (pending p).

(** The states the parser is meant to be in: [total] counts the queued
    bytes, and [waiting] is 24 without a header and the size of the header
    with one, a size that passed the [MAX_MESSAGE] test. *)
Definition well_formed (p : Parser) : Prop :=
  total p = Z.of_nat (length (queued p)) /\
  match header p with
  | None => waiting p = 24
  | Some h => waiting p = size h /\ 0 <= size h <= MAX_MESSAGE
  end.

(** Two parsers that differ at most in how the queued bytes are cut into
    buffers. *)
Definition same_stream (p q : Parser) : Prop :=
  network p = network q /\ waiting p = waiting q /\ header p = header q /\
  total p = total q /\ queued p = queued q.

(** A bound on the turns of the loop still to come. *)
Definition weight (p : Parser) : nat :=
  (2 * Z.to_nat (total p) + match header p with Some _ => 1 | None => 0 end)%nat.

(** The last branch [parse] took, if it ran at all. *)
Definition last_step (ss : list Step) : option Step :=
  match rev ss with
  | [] => None
  | s :: _ => Some s
  end.

(** What the payload turn of a frame emits: the decoded packet, or the
    error of the checksum test or of the codec. *)
Definition frame_notification (h : Header) (payload : list byte)
    : Notification :=
  if readUInt32LE (hash256 payload) 0 =? checksum h
  then
    match fromRaw (cmd h) payload with
    | inl m => packet m
    | inr e => error (DecodeError e)
    end
  else error (InvalidChecksum (readUInt32LE (hash256 payload) 0)).

(** What a parser can still emit, counted in bytes: a notification costs a
    frame or a rejected header, 24 bytes at least. *)
Definition credit (p : Parser) : Z :=
  total p + match header p with Some _ => 24 | None => 0 end.

(** ** Lemmas on the queue *)

(** Filling a chunk takes the first [need] queued bytes and leaves the
    others, however the queue is cut into buffers. *)
Lemma take_chunk_spec (pend : list (list byte)) :
  forall need : nat,
    (need <= length (concat pend))%nat ->
    exists pend',
      take_chunk need pend = Some (firstn need (concat pend), pend') /\
      concat pend' = skipn need (concat pend).
Proof.
  induction pend as [ | buf rest IH]; intros need Hle.
  - cbn in Hle. assert (need = 0%nat) as -> by lia. exists []. now cbn.
  - destruct need as [ | n].
    { exists (buf :: rest). now cbn. }
    cbn [take_chunk concat]. cbn [concat] in Hle. rewrite length_app in Hle.
    set (need := S n) in *.
    rewrite firstn_app, skipn_app.
    destruct (Nat.eqb_spec (Nat.min (length buf) need) (length buf))
      as [Hall | Hpart].
    + rewrite Hall.
      destruct (IH (need - length buf)%nat ltac:(lia)) as [pend' [Ht Hc]].
      rewrite Ht. exists pend'. split.
      * rewrite firstn_all. rewrite (firstn_all2 buf) by lia. reflexivity.
      * rewrite (skipn_all2 buf) by lia. exact Hc.
    + assert (Hn : Nat.min (length buf) need = need) by lia.
      rewrite Hn. exists (skipn need buf :: rest). split.
      * replace (need - length buf)%nat with 0%nat by lia.
        cbn [firstn]. now rewrite app_nil_r.
      * replace (need - length buf)%nat with 0%nat by lia.
        reflexivity.
Qed.

Lemma byte_at_range (data : list byte) (i : nat) : 0 <= byte_at data i < 256.
Proof.
  unfold byte_at. pose proof (Byte.to_N_bounded (nth i data x00)). lia.
Qed.

Lemma readUInt32LE_range (data : list byte) (off : nat) :
  0 <= readUInt32LE data off < 2 ^ 32.
Proof.
  unfold readUInt32LE.
  pose proof (byte_at_range data off).
  pose proof (byte_at_range data (off + 1)).
  pose proof (byte_at_range data (off + 2)).
  pose proof (byte_at_range data (off + 3)).
  lia.
Qed.

Lemma same_stream_refl (p : Parser) : same_stream p p.
Proof. unfold same_stream. tauto. Qed.

Lemma same_stream_sym (p q : Parser) : same_stream p q -> same_stream q p.
Proof. unfold same_stream. intuition congruence. Qed.

Lemma same_stream_trans (p q r : Parser) :
  same_stream p q -> same_stream q r -> same_stream p r.
Proof. unfold same_stream. intuition congruence. Qed.

(** Induction on the weight of a parser. *)
Lemma weight_ind (P : Parser -> Prop) :
  (forall p, (forall q, (weight q < weight p)%nat -> P q) -> P p) ->
  forall p, P p.
Proof.
  intros Hstep p.
  apply (well_founded_ind (Wf_nat.well_founded_ltof Parser weight)).
  intros x IH. apply Hstep. exact IH.
Qed.

(** ** Properties of the parser *)

(** A header chunk passes the length assertion of [parse]. *)
Hypothesis MAX_MESSAGE_header : 24 <= MAX_MESSAGE.

(** [parse] reads and writes [waiting] and [header] only: the queue passes
    through. *)
Lemma parse_set_queue (p : Parser) (q : list (list byte)) (n : Z)
    (data : list byte) :
  parse (set_queue p q n) data
  = match parse p data with
    | Some (p', out, s) => Some (set_queue p' q n, out, s)
    | None => None
    end.
Proof.
  unfold parse, parseHeader.
  destruct (negb (Z.of_nat (length data) <=? MAX_MESSAGE)); [ reflexivity | ].
  cbn [header set_queue network].
  destruct (header p) as [hd | ].
  - destruct (negb (_ =? checksum hd)); [ reflexivity | ].
    destruct (fromRaw (cmd hd) data); reflexivity.
  - destruct (negb (_ =? magic (network p))); [ reflexivity | ].
    destruct (_ =? 12)%nat; [ reflexivity | ].
    destruct (_ >? MAX_MESSAGE); reflexivity.
Qed.

Lemma set_queue_same (p q : Parser) :
  network p = network q -> waiting p = waiting q -> header p = header q ->
  q = set_queue p (pending q) (total q).
Proof.
  destruct p, q. cbn. intros -> -> ->. reflexivity.
Qed.

(** A header turn: the chunk is accepted, and [waiting] becomes its
    validated size, or it is rejected, and the parser waits for a header
    again. *)
Lemma parse_header_turn (p : Parser) (data : list byte) :
  header p = None -> waiting p = 24 -> length data = 24%nat ->
  exists p' out s,
    parse p data = Some (p', out, s) /\
    network p' = network p /\ pending p' = pending p /\
    total p' = total p /\
    ((s = HeaderAccepted /\
      exists h, header p' = Some h /\ waiting p' = size h /\
                0 <= size h <= MAX_MESSAGE)
     \/ (s = HeaderRejected /\ header p' = None /\ waiting p' = 24)).
Proof.
  intros Hh Hw Hlen. unfold parse, parseHeader.
  rewrite Hlen, Hh.
  destruct (Z.leb_spec (Z.of_nat 24) MAX_MESSAGE) as [_ | ?]; [ | lia ].
  cbn [negb].
  destruct (negb (_ =? magic (network p))).
  { do 3 eexists. split; [ reflexivity | ]. cbn. auto 10. }
  destruct (_ =? 12)%nat.
  { do 3 eexists. split; [ reflexivity | ]. cbn. auto 10. }
  destruct (Z.gtb_spec (readUInt32LE data 16) MAX_MESSAGE) as [Hbig | Hok].
  { do 3 eexists. split; [ reflexivity | ]. cbn. auto 10. }
  do 3 eexists. split; [ reflexivity | ]. cbn.
  repeat split. left. split; [ reflexivity | ].
  eexists. split; [ reflexivity | ]. cbn.
  pose proof (readUInt32LE_range data 16). lia.
Qed.

(** A payload turn always ends the frame. *)
Lemma parse_payload_turn (p : Parser) (hd : Header) (data : list byte) :
  header p = Some hd -> Z.of_nat (length data) <= MAX_MESSAGE ->
  exists p' out,
    parse p data = Some (p', out, PayloadDone) /\
    network p' = network p /\ pending p' = pending p /\
    total p' = total p /\ header p' = None /\ waiting p' = 24.
Proof.
  intros Hh Hlen. unfold parse. rewrite Hh.
  destruct (Z.leb_spec (Z.of_nat (length data)) MAX_MESSAGE) as [_ | ?];
    [ | lia ].
  cbn [negb].
  destruct (negb (_ =? checksum hd)).
  { do 2 eexists. split; [ reflexivity | ]. cbn. auto 10. }
  destruct (fromRaw (cmd hd) data).
  - do 2 eexists. split; [ reflexivity | ]. cbn. auto 10.
  - do 2 eexists. split; [ reflexivity | ]. cbn. auto 10.
Qed.


(** ** One turn of the loop *)

Lemma geb_true (a b : Z) : (a >=? b) = true <-> b <= a.
Proof. rewrite Z.geb_leb. apply Z.leb_le. Qed.

Lemma geb_false (a b : Z) : (a >=? b) = false <-> a < b.
Proof. rewrite Z.geb_leb. apply Z.leb_gt. Qed.

Lemma well_formed_waiting (p : Parser) : well_formed p -> 0 <= waiting p.
Proof.
  intros [_ Hc]. destruct (header p); lia.
Qed.

Lemma well_formed_same (p q : Parser) :
  same_stream p q -> well_formed p -> well_formed q.
Proof.
  unfold same_stream, well_formed.
  intros (_ & Hw & Hh & Ht & Hq) [H1 H2].
  rewrite <- Hw, <- Hh, <- Ht, <- Hq. auto.
Qed.

(** A turn parses the first [waiting] queued bytes and keeps the others
    queued. *)
Lemma iterate_char (p : Parser) :
  well_formed p -> waiting p <= total p ->
  exists pend',
    concat pend' = skipn (Z.to_nat (waiting p)) (queued p) /\
    iterate p
    = match parse p (firstn (Z.to_nat (waiting p)) (queued p)) with
      | Some (p2, out, s) =>
          Took (set_queue p2 pend' (total p - waiting p)) out s
      | None => Raised (set_queue p pend' (total p - waiting p))
      end.
Proof.
  intros Hwf Hle. pose proof (well_formed_waiting p Hwf) as Hw0.
  destruct Hwf as [Ht _].
  assert (Hneed : (Z.to_nat (waiting p) <= length (queued p))%nat) by lia.
  destruct (take_chunk_spec (pending p) _ Hneed) as [pend' [Htake Hc]].
  exists pend'. split; [ exact Hc | ].
  unfold iterate. destruct (Z.ltb_spec (waiting p) 0); [ lia | ].
  rewrite Htake. fold (queued p).
  rewrite firstn_length_le by exact Hneed.
  rewrite Z2Nat.id by lia. rewrite parse_set_queue.
  destruct (parse p _) as [[[p2 out] s] | ]; reflexivity.
Qed.

(** On a well-formed parser with enough bytes the turn goes through,
    leaves a well-formed parser of smaller weight, and its label tells
    whether a header is now present. *)
Lemma iterate_turn (p : Parser) :
  well_formed p -> waiting p <= total p ->
  exists p' out s,
    iterate p = Took p' out s /\
    well_formed p' /\ (weight p' < weight p)%nat /\
    network p' = network p /\
    (header p' <> None <-> s = HeaderAccepted).
Proof.
  intros Hwf Hle. pose proof (well_formed_waiting p Hwf) as Hw0.
  destruct (iterate_char p Hwf Hle) as [pend' [Hc Hit]].
  destruct Hwf as [Ht Hctl].
  set (need := Z.to_nat (waiting p)) in *.
  assert (Hneed : (need <= length (queued p))%nat) by lia.
  assert (Hlen : length (firstn need (queued p)) = need)
    by (apply firstn_length_le; exact Hneed).
  assert (Hrest : length (concat pend') = (length (queued p) - need)%nat)
    by (rewrite Hc; apply length_skipn).
  destruct (header p) as [hd | ] eqn:Hh.
  - destruct (parse_payload_turn p hd (firstn need (queued p)) Hh)
      as (p2 & out & Hp & Hn & _ & _ & Hh2 & Hw2); [ lia | ].
    rewrite Hp in Hit. do 3 eexists. split; [ exact Hit | ].
    unfold well_formed, weight, queued. cbn. rewrite Hh, Hh2, Hw2, Hrest.
    repeat split; try lia; try congruence; intros; congruence.
  - destruct (parse_header_turn p (firstn need (queued p)) Hh Hctl)
      as (p2 & out & s & Hp & Hn & _ & _ & Hs); [ lia | ].
    rewrite Hp in Hit. do 3 eexists. split; [ exact Hit | ].
    unfold well_formed, weight, queued. cbn. rewrite Hh, Hrest.
    destruct Hs as [(-> & h & Hh2 & Hw2 & Hsz) | (-> & Hh2 & Hw2)];
      rewrite Hh2, Hw2.
    + repeat split; try lia; try congruence.
    + repeat split; try lia; try congruence; intros; congruence.
Qed.

(** The turn does not depend on how the queue is cut into buffers. *)
Lemma iterate_same (p q : Parser) :
  well_formed p -> waiting p <= total p -> same_stream p q ->
  forall p' out s,
    iterate p = Took p' out s ->
    exists q', iterate q = Took q' out s /\ same_stream p' q'.
Proof.
  intros Hwf Hle Hsame p' out s Hit.
  pose proof (well_formed_same p q Hsame Hwf) as Hwfq.
  destruct Hsame as (Hn & Hw & Hh & Ht & Hq).
  destruct (iterate_char p Hwf Hle) as [pp [Hcp Hitp]].
  destruct (iterate_char q Hwfq ltac:(lia)) as [pq [Hcq Hitq]].
  rewrite (set_queue_same p q Hn Hw Hh) in Hitq at 2.
  rewrite parse_set_queue in Hitq.
  rewrite <- Hw, <- Hq in Hitq. rewrite Hit in Hitp.
  destruct (parse p _) as [[[p2 o2] s2] | ]; [ | discriminate ].
  injection Hitp as -> -> ->.
  eexists. split; [ exact Hitq | ].
  unfold same_stream, queued. cbn.
  rewrite Hcp, Hcq, Hw, Hq, Ht. auto.
Qed.

Lemma parse_push (p : Parser) (data chunk : list byte) :
  parse (push p data) chunk
  = match parse p chunk with
    | Some (p', out, s) =>
        Some (set_queue p' (pending p ++ [data])
                (total p + Z.of_nat (length data)), out, s)
    | None => None
    end.
Proof. apply parse_set_queue. Qed.

(** Bytes pushed behind a parser that has enough of them do not change
    its next turn. *)
Lemma iterate_push (p : Parser) (data : list byte) :
  well_formed p -> waiting p <= total p ->
  forall p' out s,
    iterate p = Took p' out s ->
    exists p'',
      iterate (push p data) = Took p'' out s /\
      same_stream p'' (push p' data).
Proof.
  intros Hwf Hle p' out s Hit.
  pose proof (well_formed_waiting p Hwf) as Hw0.
  assert (Hq : queued (push p data) = queued p ++ data).
  { unfold queued, push. cbn. rewrite concat_app. cbn.
    now rewrite app_nil_r. }
  assert (Hwf' : well_formed (push p data)).
  { destruct Hwf as [Ht Hc]. split; [ | exact Hc ].
    rewrite Hq, length_app. cbn. lia. }
  assert (Hneed : (Z.to_nat (waiting p) <= length (queued p))%nat)
    by (destruct Hwf; lia).
  destruct (iterate_char p Hwf Hle) as [pp [Hcp Hitp]].
  destruct (iterate_char (push p data) Hwf') as [pq [Hcq Hitq]];
    [ cbn; lia | ].
  rewrite parse_push in Hitq.
  change (waiting (push p data)) with (waiting p) in *.
  rewrite Hq in *. rewrite firstn_app in Hitq. rewrite skipn_app in Hcq.
  replace (Z.to_nat (waiting p) - length (queued p))%nat with 0%nat in *
    by lia.
  cbn [firstn skipn] in *. rewrite app_nil_r in Hitq.
  rewrite Hit in Hitp.
  destruct (parse p _) as [[[p2 o2] s2] | ]; [ | discriminate ].
  injection Hitp as -> -> ->.
  eexists. split; [ exact Hitq | ].
  unfold same_stream, queued, push. cbn.
  rewrite concat_app, Hcp, Hcq. cbn. rewrite app_nil_r.
  repeat split. lia.
Qed.


(** ** The loop as a whole *)

(** More turns than the weight are never used. *)
Lemma feed_loop_enough :
  forall (n : nat) (p : Parser),
    well_formed p -> (weight p < n)%nat ->
    forall m : nat, (weight p < m)%nat -> feed_loop n p = feed_loop m p.
Proof.
  induction n as [ | n IH]; intros p Hwf Hn m Hm; [ lia | ].
  destruct m as [ | m]; [ lia | ].
  cbn [feed_loop].
  destruct (total p >=? waiting p) eqn:Hc; [ | reflexivity ].
  apply geb_true in Hc.
  destruct (iterate_turn p Hwf Hc) as (p' & out & s & Hit & Hwf' & Hw & _).
  rewrite Hit. rewrite (IH p' Hwf' ltac:(lia) m ltac:(lia)). reflexivity.
Qed.

(** The loop, unfolded by one turn. *)
Lemma drain_unfold (p : Parser) :
  well_formed p ->
  drain p
  = if total p >=? waiting p
    then
      match iterate p with
      | Raised p' => mkRun p' [] [] Threw
      | Took p' out s =>
          let r := drain p' in
          mkRun (final r) (out ++ emitted r) (s :: steps r) (status r)
      end
    else mkRun p [] [] Returned.
Proof.
  intros Hwf. unfold drain at 1, turns.
  replace (2 * Z.to_nat (total p) + 2)%nat
    with (S (2 * Z.to_nat (total p) + 1)) by lia.
  cbn [feed_loop].
  destruct (total p >=? waiting p) eqn:Hc; [ | reflexivity ].
  apply geb_true in Hc.
  destruct (iterate_turn p Hwf Hc) as (p' & out & s & Hit & Hwf' & Hw & _).
  rewrite Hit. unfold drain.
  rewrite (feed_loop_enough _ p' Hwf') with (m := turns p');
    [ reflexivity | | ];
    unfold turns, weight in *; destruct (header p), (header p'); lia.
Qed.

Lemma drain_done (p : Parser) :
  total p < waiting p -> drain p = mkRun p [] [] Returned.
Proof.
  intros Hlt. unfold drain, turns.
  replace (2 * Z.to_nat (total p) + 2)%nat
    with (S (2 * Z.to_nat (total p) + 1)) by lia.
  cbn [feed_loop]. apply geb_false in Hlt. now rewrite Hlt.
Qed.

Lemma last_step_snoc (hist : list Step) (s : Step) :
  last_step (hist ++ [s]) = Some s.
Proof. unfold last_step. now rewrite rev_app_distr. Qed.

(** The loop returns, at rest, in a well-formed state of the same
    network, and the last label of the history tells whether a header is
    present. *)
Lemma drain_rest :
  forall p : Parser,
    well_formed p ->
    status (drain p) = Returned /\
    well_formed (final (drain p)) /\
    total (final (drain p)) < waiting (final (drain p)) /\
    network (final (drain p)) = network p /\
    forall hist : list Step,
      (header p <> None <-> last_step hist = Some HeaderAccepted) ->
      (header (final (drain p)) <> None
       <-> last_step (hist ++ steps (drain p)) = Some HeaderAccepted).
Proof.
  induction p as [p IH] using weight_ind. intros Hwf.
  rewrite (drain_unfold p Hwf).
  destruct (total p >=? waiting p) eqn:Hc.
  - apply geb_true in Hc.
    destruct (iterate_turn p Hwf Hc)
      as (p' & out & s & Hit & Hwf' & Hw & Hn & Hs).
    rewrite Hit. cbn [final status steps].
    destruct (IH p' Hw Hwf') as (H1 & H2 & H3 & H4 & H5).
    split; [ exact H1 | ]. split; [ exact H2 | ]. split; [ exact H3 | ].
    split; [ congruence | ]. intros hist _.
    specialize (H5 (hist ++ [s])).
    rewrite <- app_assoc in H5. cbn [app] in H5. apply H5.
    rewrite last_step_snoc, Hs. split; congruence.
  - apply geb_false in Hc. cbn [final status steps].
    split; [ reflexivity | ]. split; [ exact Hwf | ].
    split; [ exact Hc | ]. split; [ reflexivity | ].
    intros hist Hh. now rewrite app_nil_r.
Qed.

(** The loop does not depend on how the queue is cut into buffers. *)
Lemma drain_same :
  forall p : Parser,
    well_formed p ->
    forall q : Parser,
      same_stream p q ->
      emitted (drain p) = emitted (drain q) /\
      steps (drain p) = steps (drain q) /\
      same_stream (final (drain p)) (final (drain q)).
Proof.
  induction p as [p IH] using weight_ind. intros Hwf q Hsame.
  pose proof (well_formed_same p q Hsame Hwf) as Hwfq.
  rewrite (drain_unfold p Hwf), (drain_unfold q Hwfq).
  assert (Hcq : (total q >=? waiting q) = (total p >=? waiting p)).
  { destruct Hsame as (_ & -> & _ & -> & _). reflexivity. }
  rewrite Hcq.
  destruct (total p >=? waiting p) eqn:Hc.
  - apply geb_true in Hc.
    destruct (iterate_turn p Hwf Hc)
      as (p' & out & s & Hit & Hwf' & Hw & _).
    destruct (iterate_same p q Hwf Hc Hsame p' out s Hit)
      as (q' & Hitq & Hsame').
    rewrite Hit, Hitq. cbn [final emitted steps].
    destruct (IH p' Hw Hwf' q' Hsame') as (H1 & H2 & H3).
    rewrite H1, H2. auto.
  - cbn. auto.
Qed.

(** Draining, then pushing more bytes and draining again, is draining
    with those bytes already pushed. *)
Lemma drain_push :
  forall p : Parser,
    well_formed p ->
    forall data : list byte,
      emitted (drain (push p data))
      = emitted (drain p) ++ emitted (drain (push (final (drain p)) data))
      /\ steps (drain (push p data))
         = steps (drain p) ++ steps (drain (push (final (drain p)) data))
      /\ same_stream (final (drain (push p data)))
           (final (drain (push (final (drain p)) data))).
Proof.
  induction p as [p IH] using weight_ind. intros Hwf data.
  rewrite (drain_unfold p Hwf).
  destruct (total p >=? waiting p) eqn:Hc.
  - apply geb_true in Hc.
    destruct (iterate_turn p Hwf Hc)
      as (p' & out & s & Hit & Hwf' & Hw & _).
    destruct (iterate_push p data Hwf Hc p' out s Hit)
      as (p'' & Hit' & Hsame).
    assert (Hwfp : well_formed (push p data)).
    { destruct Hwf as [Ht Hctl]. split; [ | exact Hctl ].
      unfold queued, push. cbn. rewrite concat_app, length_app. cbn.
      rewrite app_nil_r. fold (queued p). lia. }
    rewrite (drain_unfold _ Hwfp).
    assert (Hc' : (total (push p data) >=? waiting (push p data)) = true)
      by (apply geb_true; cbn; lia).
    rewrite Hc', Hit, Hit'. cbn [final emitted steps].
    assert (Hwf'' : well_formed p'')
      by (destruct (iterate_turn _ Hwfp ltac:(cbn; lia))
            as (x & ? & ? & Hx & ? & _); congruence).
    destruct (drain_same p'' Hwf'' _ Hsame) as (E1 & E2 & E3).
    destruct (IH p' Hw Hwf' data) as (H1 & H2 & H3).
    rewrite E1, E2, H1, H2, <- !app_assoc. cbn [app].
    split; [ reflexivity | ]. split; [ reflexivity | ].
    eapply same_stream_trans; eassumption.
  - cbn [final emitted steps app].
    split; [ reflexivity | ]. split; [ reflexivity | ].
    apply same_stream_refl.
Qed.


(** ** Sequences of [feed] calls *)

Lemma queued_push (p : Parser) (data : list byte) :
  queued (push p data) = queued p ++ data.
Proof.
  unfold queued, push. cbn. rewrite concat_app. cbn. now rewrite app_nil_r.
Qed.

Lemma well_formed_push (p : Parser) (data : list byte) :
  well_formed p -> well_formed (push p data).
Proof.
  intros [Ht Hctl]. split; [ | exact Hctl ].
  rewrite queued_push, length_app. cbn. lia.
Qed.

Lemma well_formed_new (net : Network) : well_formed (Parser_new net).
Proof. split; reflexivity. Qed.

Lemma push_push_same (p : Parser) (a b : list byte) :
  same_stream (push (push p a) b) (push p (a ++ b)).
Proof.
  unfold same_stream. rewrite !queued_push, <- app_assoc. cbn.
  rewrite length_app. repeat split. lia.
Qed.

(** A [feed] call on a well-formed parser returns and leaves it well
    formed and at rest. *)
Lemma feed_rest (p : Parser) (data : list byte) :
  well_formed p ->
  status (feed p data) = Returned /\
  well_formed (final (feed p data)) /\
  total (final (feed p data)) < waiting (final (feed p data)).
Proof.
  intros Hwf. unfold feed.
  destruct (drain_rest (push p data) (well_formed_push p data Hwf))
    as (H1 & H2 & H3 & _).
  auto.
Qed.

Lemma feed_empty (p : Parser) :
  total p < waiting p -> feed p [] = mkRun (push p []) [] [] Returned.
Proof.
  intros Hlt. unfold feed. apply drain_done. cbn. lia.
Qed.

(** Feeding the pieces one by one amounts to feeding them joined. *)
Lemma feed_all_concat :
  forall (pieces : list (list byte)) (p : Parser),
    well_formed p -> total p < waiting p ->
    status (feed_all p pieces) = Returned /\
    emitted (feed_all p pieces) = emitted (feed p (concat pieces)) /\
    steps (feed_all p pieces) = steps (feed p (concat pieces)) /\
    same_stream (final (feed_all p pieces)) (final (feed p (concat pieces))).
Proof.
  induction pieces as [ | data rest IH]; intros p Hwf Hrest.
  - cbn [feed_all concat]. rewrite (feed_empty p Hrest).
    cbn [status emitted steps final]. repeat (split; [ reflexivity | ]).
    unfold same_stream. rewrite queued_push, app_nil_r. cbn.
    repeat split. lia.
  - cbn [feed_all concat].
    destruct (feed_rest p data Hwf) as (Hs & Hwf1 & Hrest1).
    rewrite Hs. cbn [status emitted steps final].
    destruct (IH _ Hwf1 Hrest1) as (I1 & I2 & I3 & I4).
    rewrite I1, I2, I3. unfold feed in *.
    pose proof (well_formed_push p data Hwf) as Hwfp.
    destruct (drain_push _ Hwfp (concat rest)) as (D1 & D2 & D3).
    destruct (drain_same _ (well_formed_push _ (concat rest) Hwfp) _
                (push_push_same p data (concat rest))) as (S1 & S2 & S3).
    rewrite <- S1, <- S2, D1, D2.
    repeat (split; [ reflexivity | ]).
    apply same_stream_trans with (1 := I4).
    apply same_stream_trans with (2 := S3).
    apply same_stream_sym. exact D3.
Qed.

(** C4: however a byte sequence is cut into consecutive pieces, feeding
    the pieces in order to a fresh parser emits the same packet and error
    notifications as feeding the whole sequence in one call; every call
    returns, and the two parsers end in the same state, up to how the
    bytes still queued are cut into buffers. *)
Theorem feed_partition (net : Network) (pieces : list (list byte)) :
  emitted (feed_all (Parser_new net) pieces)
  = emitted (feed (Parser_new net) (concat pieces))
  /\ status (feed_all (Parser_new net) pieces) = Returned
  /\ status (feed (Parser_new net) (concat pieces)) = Returned
  /\ same_stream (final (feed_all (Parser_new net) pieces))
       (final (feed (Parser_new net) (concat pieces))).
Proof.
  destruct (feed_all_concat pieces (Parser_new net) (well_formed_new net))
    as (H1 & H2 & _ & H4); [ cbn; lia | ].
  destruct (feed_rest (Parser_new net) (concat pieces) (well_formed_new net))
    as (H3 & _).
  auto.
Qed.

(** The state a sequence of calls leaves, with the history of labels
    before it. *)
Lemma feed_all_rest :
  forall (pieces : list (list byte)) (p : Parser) (hist : list Step),
    well_formed p -> total p < waiting p ->
    (header p <> None <-> last_step hist = Some HeaderAccepted) ->
    status (feed_all p pieces) = Returned /\
    well_formed (final (feed_all p pieces)) /\
    total (final (feed_all p pieces)) < waiting (final (feed_all p pieces)) /\
    (header (final (feed_all p pieces)) <> None
     <-> last_step (hist ++ steps (feed_all p pieces)) = Some HeaderAccepted).
Proof.
  induction pieces as [ | data rest IH]; intros p hist Hwf Hrest Hh.
  - cbn. rewrite app_nil_r. auto.
  - cbn [feed_all].
    destruct (feed_rest p data Hwf) as (Hs & Hwf1 & Hrest1).
    rewrite Hs. cbn [status final steps].
    destruct (drain_rest (push p data) (well_formed_push p data Hwf))
      as (_ & _ & _ & _ & Hlab).
    specialize (Hlab hist Hh). fold (feed p data) in Hlab.
    destruct (IH _ (hist ++ steps (feed p data)) Hwf1 Hrest1 Hlab)
      as (I1 & I2 & I3 & I4).
    rewrite <- app_assoc in I4. auto.
Qed.

(** C5: after any sequence of [feed] calls on a fresh parser, every call
    has returned and the parser is at rest with [total < waiting]; a
    header is present exactly when the last turn of [parse] accepted a
    header; and [waiting] is 24 or the size of the present header, a size
    that passed the [MAX_MESSAGE] test. *)
Theorem parser_at_rest (net : Network) (pieces : list (list byte)) :
  let r := feed_all (Parser_new net) pieces in
  status r = Returned /\
  total (final r) < waiting (final r) /\
  (header (final r) <> None <-> last_step (steps r) = Some HeaderAccepted) /\
  (waiting (final r) = 24 \/
   exists h, header (final r) = Some h /\ waiting (final r) = size h /\
             0 <= size h <= MAX_MESSAGE).
Proof.
  intros r.
  destruct (feed_all_rest pieces (Parser_new net) [] (well_formed_new net))
    as (H1 & H2 & H3 & H4).
  - cbn. lia.
  - cbn. split; [ congruence | discriminate ].
  - fold r in H1, H2, H3, H4. cbn [app] in H4.
    split; [ exact H1 | ]. split; [ exact H3 | ]. split; [ exact H4 | ].
    destruct H2 as [_ Hctl]. destruct (header (final r)) as [h | ].
    + right. exists h. tauto.
    + left. exact Hctl.
Qed.


(** ** Single frames *)

(** One turn of the loop, with the queue of the next state cut in one
    buffer. *)
Lemma drain_turn (p p2 : Parser) (out : list Notification) (s : Step) :
  well_formed p -> waiting p <= total p ->
  parse p (firstn (Z.to_nat (waiting p)) (queued p)) = Some (p2, out, s) ->
  let next :=
    set_queue p2 [skipn (Z.to_nat (waiting p)) (queued p)]
      (total p - waiting p) in
  well_formed next /\
  emitted (drain p) = out ++ emitted (drain next) /\
  steps (drain p) = s :: steps (drain next) /\
  same_stream (final (drain p)) (final (drain next)).
Proof.
  intros Hwf Hle Hp next.
  destruct (iterate_char p Hwf Hle) as [pend' [Hc Hit]].
  rewrite Hp in Hit.
  destruct (iterate_turn p Hwf Hle) as (p' & o & s' & Hit' & Hwf' & _).
  rewrite Hit in Hit'. injection Hit' as <- <- <-.
  assert (Hsame : same_stream (set_queue p2 pend' (total p - waiting p)) next).
  { unfold same_stream, queued, next. cbn. rewrite Hc, app_nil_r. auto. }
  destruct (drain_same _ Hwf' _ Hsame) as (E1 & E2 & E3).
  rewrite (drain_unfold p Hwf).
  assert (Hge : (total p >=? waiting p) = true) by (apply geb_true; lia).
  rewrite Hge, Hit. cbn [emitted steps final]. rewrite E1, E2.
  split; [ exact (well_formed_same _ _ Hsame Hwf') | auto ].
Qed.

(** What an accepted header is made of. *)
Lemma parseHeader_accepted (p : Parser) (data : list byte) (h : Header) :
  snd (fst (parseHeader p data)) = Some h ->
  parseHeader p data = (set_waiting p (size h), Some h, []) /\
  readUInt32LE data 0 = magic (network p) /\
  cmd_scan 12 data 0 <> 12%nat /\
  size h = readUInt32LE data 16 /\
  size h <= MAX_MESSAGE /\
  checksum h = readUInt32LE data 20.
Proof.
  unfold parseHeader.
  destruct (Z.eqb_spec (readUInt32LE data 0) (magic (network p)))
    as [Hm | Hm]; cbn [negb]; [ | discriminate ].
  destruct (Nat.eqb_spec (cmd_scan 12 data 0) 12) as [Hc | Hc];
    [ discriminate | ].
  destruct (Z.gtb_spec (readUInt32LE data 16) MAX_MESSAGE) as [Hs | Hs];
    [ discriminate | ].
  cbn. intros [= <-]. cbn. auto 10.
Qed.

Lemma queued_nil (p : Parser) : well_formed p -> total p = 0 -> queued p = [].
Proof.
  intros [Ht _] H0. apply length_zero_iff_nil. lia.
Qed.

(** An accepted header and a payload that does not hash to its checksum,
    fed in one call to a parser that holds no bytes and waits for a
    header. *)
Lemma bad_checksum_once (p : Parser) (hdr payload : list byte) (h : Header) :
  well_formed p -> header p = None -> total p = 0 ->
  length hdr = 24%nat ->
  snd (fst (parseHeader p hdr)) = Some h ->
  size h = Z.of_nat (length payload) ->
  readUInt32LE (hash256 payload) 0 <> checksum h ->
  let r := feed p (hdr ++ payload) in
  emitted r = [error (InvalidChecksum (readUInt32LE (hash256 payload) 0))] /\
  steps r = [HeaderAccepted; PayloadDone] /\
  status r = Returned /\
  waiting (final r) = 24 /\ header (final r) = None /\ total (final r) = 0.
Proof.
  intros Hwf Hh Ht Hlen Hacc Hsize Hsum r.
  destruct (parseHeader_accepted p hdr h Hacc) as (Hph & _ & _ & _ & Hmax & _).
  pose proof (queued_nil p Hwf Ht) as Hq.
  assert (Hw : waiting p = 24) by (destruct Hwf as [_ Hc]; now rewrite Hh in Hc).
  pose proof (well_formed_push p (hdr ++ payload) Hwf) as Hwf1.
  set (p1 := push p (hdr ++ payload)) in *.
  assert (Hq1 : queued p1 = hdr ++ payload)
    by (unfold p1; now rewrite queued_push, Hq).
  set (q1 := set_queue (set_header (set_waiting p (size h)) (Some h))
                (pending p ++ [hdr ++ payload])
                (total p + Z.of_nat (length (hdr ++ payload)))).
  assert (Hp1 : parse p1 hdr = Some (q1, [], HeaderAccepted)).
  { unfold p1, q1. rewrite parse_push. unfold parse. rewrite Hlen, Hh, Hph.
    destruct (Z.leb_spec (Z.of_nat 24) MAX_MESSAGE); [ reflexivity | lia ]. }
  destruct (drain_turn p1 q1 [] HeaderAccepted Hwf1)
    as (Hwf2 & E1 & S1 & F1).
  { unfold p1. cbn. rewrite length_app. lia. }
  { change (waiting p1) with (waiting p). rewrite Hw, Hq1.
    change (Z.to_nat 24) with 24%nat.
    rewrite firstn_app, firstn_all2, Hlen, Nat.sub_diag by lia.
    cbn [firstn]. rewrite app_nil_r. exact Hp1. }
  change (waiting p1) with (waiting p) in *. rewrite Hw, Hq1 in *.
  change (Z.to_nat 24) with 24%nat in *.
  rewrite skipn_app, skipn_all2, Hlen, Nat.sub_diag in * by lia.
  cbn [skipn app] in *.
  match type of Hwf2 with well_formed ?n => set (p2 := n) in * end.
  set (q2 := set_header (set_waiting p2 24) None).
  set (bad := [error (InvalidChecksum (readUInt32LE (hash256 payload) 0))]).
  assert (Hp2 : parse p2 payload = Some (q2, bad, PayloadDone)).
  { unfold parse. cbn [header p2 q1 set_queue set_header].
    destruct (Z.leb_spec (Z.of_nat (length payload)) MAX_MESSAGE);
      [ | lia ].
    cbn [negb].
    destruct (Z.eqb_spec (readUInt32LE (hash256 payload) 0) (checksum h));
      [ contradiction | reflexivity ]. }
  assert (Hw2 : waiting p2 = Z.of_nat (length payload))
    by (cbn; exact Hsize).
  assert (Ht2 : total p2 = Z.of_nat (length payload))
    by (unfold p2, p1; cbn; rewrite length_app; lia).
  destruct (drain_turn p2 q2 bad PayloadDone Hwf2)
    as (Hwf3 & E2 & S2 & F2).
  { lia. }
  { rewrite Hw2, Nat2Z.id. change (queued p2) with (payload ++ []).
    rewrite app_nil_r, firstn_all. exact Hp2. }
  match type of Hwf3 with well_formed ?n => set (p3 := n) in * end.
  assert (Hd3 : drain p3 = mkRun p3 [] [] Returned).
  { apply drain_done. unfold p3, q2.
    cbn [total waiting set_queue set_header set_waiting]. lia. }
  rewrite Hd3 in *. cbn [emitted steps final] in *.
  destruct (drain_rest p1 Hwf1) as (Hst & _).
  unfold r, feed. fold p1.
  rewrite E1, E2, S1, S2.
  destruct (same_stream_trans _ _ _ F1 F2) as (_ & W & H' & T & _).
  rewrite W, H', T. unfold p3, q2.
  cbn [total waiting header set_queue set_header set_waiting].
  repeat split; try assumption. lia.
Qed.


(** C6: a frame whose header is accepted and whose payload does not hash
    to the checksum of the header, fed in any number of pieces to a parser
    that holds no bytes and waits for a header, makes the parser emit one
    InvalidChecksum error and nothing else, and leaves it waiting for a
    header ([waiting = 24], no header) with an empty queue. *)
Theorem feed_bad_checksum (p : Parser) (hdr payload : list byte)
    (h : Header) (pieces : list (list byte)) :
  well_formed p -> header p = None -> total p = 0 ->
  length hdr = 24%nat ->
  snd (fst (parseHeader p hdr)) = Some h ->
  size h = Z.of_nat (length payload) ->
  readUInt32LE (hash256 payload) 0 <> checksum h ->
  concat pieces = hdr ++ payload ->
  let r := feed_all p pieces in
  emitted r = [error (InvalidChecksum (readUInt32LE (hash256 payload) 0))] /\
  steps r = [HeaderAccepted; PayloadDone] /\
  status r = Returned /\
  waiting (final r) = 24 /\ header (final r) = None /\ total (final r) = 0.
Proof.
  intros Hwf Hh Ht Hlen Hacc Hsize Hsum Hcat r.
  assert (Hw : waiting p = 24)
    by (destruct Hwf as [_ Hc]; now rewrite Hh in Hc).
  destruct (feed_all_concat pieces p Hwf ltac:(lia)) as (A1 & A2 & A3 & A4).
  rewrite Hcat in A2, A3, A4.
  destruct (bad_checksum_once p hdr payload h Hwf Hh Ht Hlen Hacc Hsize Hsum)
    as (B1 & B2 & _ & B4 & B5 & B6).
  destruct A4 as (_ & W & H' & T & _).
  unfold r. rewrite A2, A3, W, H', T. auto 10.
Qed.

(** C7: a 24-byte header with the network magic and a terminated command
    that declares more than [MAX_MESSAGE] payload bytes makes the parser
    emit one OversizePacket error and wait for a header again; only the
    24 bytes are taken, and the bytes behind them are handled exactly as
    if fed to the parser alone. *)
Theorem feed_oversize (p : Parser) (hdr rest : list byte) :
  well_formed p -> header p = None -> total p = 0 ->
  length hdr = 24%nat ->
  readUInt32LE hdr 0 = magic (network p) ->
  cmd_scan 12 hdr 0 <> 12%nat ->
  readUInt32LE hdr 16 > MAX_MESSAGE ->
  let r := feed p (hdr ++ rest) in
  let r' := feed p rest in
  status r = Returned /\
  emitted r = error (OversizePacket (readUInt32LE hdr 16)) :: emitted r' /\
  steps r = HeaderRejected :: steps r' /\
  same_stream (final r) (final r') /\
  ((length rest < 24)%nat ->
   emitted r = [error (OversizePacket (readUInt32LE hdr 16))] /\
   waiting (final r) = 24 /\ header (final r) = None /\
   total (final r) = Z.of_nat (length rest) /\ queued (final r) = rest).
Proof.
  intros Hwf Hh Ht Hlen Hmagic Hcmd Hbig r r'.
  pose proof (queued_nil p Hwf Ht) as Hq.
  assert (Hw : waiting p = 24) by (destruct Hwf as [_ Hc]; now rewrite Hh in Hc).
  pose proof (well_formed_push p (hdr ++ rest) Hwf) as Hwf1.
  set (p1 := push p (hdr ++ rest)) in *.
  assert (Hq1 : queued p1 = hdr ++ rest)
    by (unfold p1; now rewrite queued_push, Hq).
  set (big := [error (OversizePacket (readUInt32LE hdr 16))]).
  set (q1 := set_queue (set_header (set_waiting p 24) None)
                (pending p ++ [hdr ++ rest])
                (total p + Z.of_nat (length (hdr ++ rest)))).
  assert (Hp1 : parse p1 hdr = Some (q1, big, HeaderRejected)).
  { unfold p1, q1. rewrite parse_push. unfold parse, parseHeader.
    rewrite Hlen, Hh.
    destruct (Z.leb_spec (Z.of_nat 24) MAX_MESSAGE); [ | lia ].
    cbn [negb].
    destruct (Z.eqb_spec (readUInt32LE hdr 0) (magic (network p)));
      [ | contradiction ].
    cbn [negb].
    destruct (Nat.eqb_spec (cmd_scan 12 hdr 0) 12); [ contradiction | ].
    destruct (Z.gtb_spec (readUInt32LE hdr 16) MAX_MESSAGE);
      [ reflexivity | lia ]. }
  destruct (drain_turn p1 q1 big HeaderRejected Hwf1)
    as (Hwf2 & E1 & S1 & F1).
  { unfold p1. cbn. rewrite length_app. lia. }
  { change (waiting p1) with (waiting p). rewrite Hw, Hq1.
    change (Z.to_nat 24) with 24%nat.
    rewrite firstn_app, firstn_all2, Hlen, Nat.sub_diag by lia.
    cbn [firstn]. rewrite app_nil_r. exact Hp1. }
  change (waiting p1) with (waiting p) in *. rewrite Hw, Hq1 in *.
  change (Z.to_nat 24) with 24%nat in *.
  rewrite skipn_app, skipn_all2, Hlen, Nat.sub_diag in * by lia.
  cbn [skipn app] in *.
  match type of Hwf2 with well_formed ?n => set (p2 := n) in * end.
  assert (Hsame : same_stream p2 (push p rest)).
  { unfold same_stream. rewrite queued_push, Hq.
    unfold p2, q1, p1, queued. cbn. rewrite length_app, app_nil_r.
    repeat split; try congruence. lia. }
  destruct (drain_same p2 Hwf2 _ Hsame) as (E2 & S2 & F2).
  fold (feed p rest) in E2, S2, F2. fold r' in E2, S2, F2.
  destruct (drain_rest p1 Hwf1) as (Hst & _).
  assert (Hr : r = drain p1) by reflexivity.
  rewrite Hr, E1, S1, E2, S2.
  pose proof (same_stream_trans _ _ _ F1 F2) as F.
  split; [ exact Hst | ]. split; [ reflexivity | ].
  split; [ reflexivity | ]. split; [ exact F | ].
  intros Hshort.
  assert (Hd : r' = mkRun (push p rest) [] [] Returned).
  { unfold r', feed. apply drain_done. cbn. lia. }
  destruct F as (_ & W & H' & T & Q).
  rewrite W, H', T, Q, Hd. cbn [emitted final].
  rewrite queued_push, Hq. cbn. repeat split; try assumption. lia.
Qed.


(** * Further properties of the parser *)

(** ** The copy loop and the header fields *)

Lemma take_chunk_short (pend : list (list byte)) :
  forall need : nat,
    (length (concat pend) < need)%nat -> take_chunk need pend = None.
Proof.
  induction pend as [ | buf rest IH]; intros need Hlt.
  - destruct need; [ cbn in Hlt; lia | reflexivity ].
  - destruct need as [ | n]; [ lia | ].
    cbn [concat] in Hlt. rewrite length_app in Hlt.
    cbn [take_chunk]. set (need := S n) in *.
    destruct (Nat.eqb_spec (Nat.min (length buf) need) (length buf))
      as [Hall | Hpart]; [ | lia ].
    rewrite Hall, IH by lia. reflexivity.
Qed.

(** X10: the copy loop of [feed] does not depend on how the queue is cut
    into buffers: with at least [need] bytes queued it returns exactly the
    first [need] bytes and leaves exactly the others queued, in order;
    with fewer it fails (the queue runs empty). *)
Theorem take_chunk_exact (need : nat) (pend : list (list byte)) :
  ((need <= length (concat pend))%nat /\
   exists chunk rest,
     take_chunk need pend = Some (chunk, rest) /\
     chunk = firstn need (concat pend) /\
     length chunk = need /\
     chunk ++ concat rest = concat pend)
  \/ ((length (concat pend) < need)%nat /\ take_chunk need pend = None).
Proof.
  destruct (Nat.le_gt_cases need (length (concat pend))) as [Hle | Hgt].
  - left. split; [ exact Hle | ].
    destruct (take_chunk_spec pend need Hle) as (rest & Ht & Hc).
    exists (firstn need (concat pend)), rest.
    split; [ exact Ht | ]. split; [ reflexivity | ].
    split; [ apply firstn_length_le; exact Hle | ].
    rewrite Hc. apply firstn_skipn.
  - right. split; [ exact Hgt | apply take_chunk_short; exact Hgt ].
Qed.

(** The scan of the command field stops at its first NUL byte, or at 12. *)
Lemma cmd_scan_spec (data : list byte) :
  forall (n i : nat),
    (i + n = 12)%nat ->
    (i <= cmd_scan n data i <= 12)%nat /\
    (forall j, (i <= j < cmd_scan n data i)%nat -> byte_at data (j + 4) <> 0) /\
    ((cmd_scan n data i < 12)%nat ->
     byte_at data (cmd_scan n data i + 4) = 0).
Proof.
  induction n as [ | n IH]; intros i Hi.
  - cbn. repeat split; lia.
  - cbn [cmd_scan].
    destruct (Z.eqb_spec (byte_at data (i + 4)) 0) as [Hz | Hnz];
      cbn [negb andb].
    + repeat split; try lia; intros _; exact Hz.
    + destruct (Nat.ltb_spec i 12) as [_ | ?]; [ | lia ].
      destruct (IH (i + 1)%nat ltac:(lia)) as (H1 & H2 & H3).
      split; [ lia | ]. split; [ | exact H3 ].
      intros j Hj. destruct (Nat.eq_dec j i) as [-> | Hne];
        [ exact Hnz | apply H2; lia ].
Qed.




(** ** Frames and rejected headers, followed by more bytes *)

Lemma parse_payload_out (p : Parser) (h : Header) (payload : list byte) :
  header p = Some h -> Z.of_nat (length payload) <= MAX_MESSAGE ->
  parse p payload
  = Some (set_header (set_waiting p 24) None,
          [frame_notification h payload], PayloadDone).
Proof.
  intros Hh Hlen. unfold parse, frame_notification. rewrite Hh.
  destruct (Z.leb_spec (Z.of_nat (length payload)) MAX_MESSAGE); [ | lia ].
  cbn [negb].
  destruct (readUInt32LE (hash256 payload) 0 =? checksum h);
    [ | reflexivity ].
  cbn [negb]. destruct (fromRaw (cmd h) payload); reflexivity.
Qed.

(** The header turn on a parser that holds nothing but the chunk and what
    follows it. *)
Lemma header_turn (p q1 : Parser) (hdr rest : list byte)
    (out : list Notification) (s : Step) :
  well_formed p -> header p = None -> total p = 0 ->
  length hdr = 24%nat ->
  parse p hdr = Some (q1, out, s) ->
  let next := set_queue q1 [rest] (Z.of_nat (length rest)) in
  well_formed next /\
  emitted (feed p (hdr ++ rest)) = out ++ emitted (drain next) /\
  steps (feed p (hdr ++ rest)) = s :: steps (drain next) /\
  status (feed p (hdr ++ rest)) = Returned /\
  same_stream (final (feed p (hdr ++ rest))) (final (drain next)).
Proof.
  intros Hwf Hh Ht Hlen Hp next.
  pose proof (queued_nil p Hwf Ht) as Hq.
  assert (Hw : waiting p = 24)
    by (destruct Hwf as [_ Hc]; now rewrite Hh in Hc).
  pose proof (well_formed_push p (hdr ++ rest) Hwf) as Hwf1.
  set (p1 := push p (hdr ++ rest)) in *.
  assert (Hq1 : queued p1 = hdr ++ rest)
    by (unfold p1; now rewrite queued_push, Hq).
  set (q1' := set_queue q1 (pending p ++ [hdr ++ rest])
                (total p + Z.of_nat (length (hdr ++ rest)))).
  assert (Hp1 : parse p1 hdr = Some (q1', out, s)).
  { unfold p1, q1'. rewrite parse_push, Hp. reflexivity. }
  destruct (drain_turn p1 q1' out s Hwf1) as (Hwf2 & E1 & S1 & F1).
  { unfold p1. cbn. rewrite length_app. lia. }
  { change (waiting p1) with (waiting p). rewrite Hw, Hq1.
    change (Z.to_nat 24) with 24%nat.
    rewrite firstn_app, firstn_all2, Hlen, Nat.sub_diag by lia.
    cbn [firstn]. rewrite app_nil_r. exact Hp1. }
  change (waiting p1) with (waiting p) in *. rewrite Hw, Hq1 in *.
  change (Z.to_nat 24) with 24%nat in *.
  rewrite skipn_app, skipn_all2, Hlen, Nat.sub_diag in * by lia.
  cbn [skipn app] in *.
  assert (Hn : set_queue q1' [rest] (total p1 - 24) = next).
  { unfold next, q1', p1, set_queue. cbn. rewrite length_app. f_equal. lia. }
  rewrite Hn in *.
  destruct (drain_rest p1 Hwf1) as (Hst & _).
  unfold feed. fold p1. auto.
Qed.

(** A whole frame, then the bytes behind it. *)
Lemma frame_then (p : Parser) (hdr payload rest : list byte) (h : Header) :
  well_formed p -> header p = None -> total p = 0 ->
  length hdr = 24%nat ->
  snd (fst (parseHeader p hdr)) = Some h ->
  size h = Z.of_nat (length payload) ->
  let r := feed p (hdr ++ payload ++ rest) in
  let r' := feed p rest in
  emitted r = frame_notification h payload :: emitted r' /\
  steps r = HeaderAccepted :: PayloadDone :: steps r' /\
  status r = Returned /\
  same_stream (final r) (final r').
Proof.
  intros Hwf Hh Ht Hlen Hacc Hsize r r'.
  destruct (parseHeader_accepted p hdr h Hacc) as (Hph & _ & _ & _ & Hmax & _).
  pose proof (queued_nil p Hwf Ht) as Hq.
  assert (Hw : waiting p = 24)
    by (destruct Hwf as [_ Hc]; now rewrite Hh in Hc).
  set (q1 := set_header (set_waiting p (size h)) (Some h)).
  assert (Hp : parse p hdr = Some (q1, [], HeaderAccepted)).
  { unfold parse. rewrite Hlen, Hh, Hph.
    destruct (Z.leb_spec (Z.of_nat 24) MAX_MESSAGE); [ reflexivity | lia ]. }
  destruct (header_turn p q1 hdr (payload ++ rest) [] HeaderAccepted
              Hwf Hh Ht Hlen Hp) as (Hwf2 & E1 & S1 & St & F1).
  set (p2 := set_queue q1 [payload ++ rest]
               (Z.of_nat (length (payload ++ rest)))) in *.
  assert (Hq2 : queued p2 = payload ++ rest)
    by (unfold queued, p2; cbn; now rewrite app_nil_r).
  assert (Hw2 : waiting p2 = Z.of_nat (length payload)) by exact Hsize.
  destruct (drain_turn p2 (set_header (set_waiting p2 24) None)
              [frame_notification h payload] PayloadDone Hwf2)
    as (Hwf3 & E2 & S2 & F2).
  { rewrite Hw2. unfold p2. cbn [total set_queue].
    rewrite length_app. lia. }
  { rewrite Hw2, Nat2Z.id, Hq2.
    rewrite firstn_app, firstn_all, Nat.sub_diag. cbn [firstn].
    rewrite app_nil_r. apply parse_payload_out; [ reflexivity | lia ]. }
  rewrite Hw2, Nat2Z.id, Hq2 in *.
  rewrite skipn_app, skipn_all, Nat.sub_diag in *. cbn [skipn app] in *.
  match type of Hwf3 with well_formed ?n => set (p3 := n) in * end.
  assert (Hsame : same_stream p3 (push p rest)).
  { unfold same_stream. rewrite queued_push, Hq.
    unfold p3, p2, q1, queued. cbn. rewrite length_app, app_nil_r.
    repeat split; try congruence. lia. }
  destruct (drain_same p3 Hwf3 _ Hsame) as (E3 & S3 & F3).
  fold (feed p rest) in E3, S3, F3. fold r' in E3, S3, F3.
  unfold r. rewrite E1, S1, E2, S2, E3, S3. cbn [app].
  repeat (split; [ first [ reflexivity | exact St ] | ]).
  eapply same_stream_trans; [ exact F1 | ].
  eapply same_stream_trans; [ exact F2 | exact F3 ].
Qed.

(** What [parseHeader] leaves untouched. *)
Lemma parseHeader_frame (p : Parser) (data : list byte) :
  let p' := fst (fst (parseHeader p data)) in
  network p' = network p /\ pending p' = pending p /\ total p' = total p /\
  header p' = header p /\
  (snd (fst (parseHeader p data)) = None -> waiting p = 24 -> waiting p' = 24).
Proof.
  unfold parseHeader.
  destruct (negb (_ =? magic (network p))); [ cbn; auto | ].
  destruct (_ =? 12)%nat; [ cbn; auto | ].
  destruct (_ >? MAX_MESSAGE); cbn; auto.
  repeat split. discriminate.
Qed.

(** A rejected header, then the bytes behind it. *)
Lemma rejected_then (p : Parser) (hdr rest : list byte) :
  well_formed p -> header p = None -> total p = 0 ->
  length hdr = 24%nat ->
  snd (fst (parseHeader p hdr)) = None ->
  let r := feed p (hdr ++ rest) in
  let r' := feed p rest in
  emitted r = snd (parseHeader p hdr) ++ emitted r' /\
  steps r = HeaderRejected :: steps r' /\
  status r = Returned /\
  same_stream (final r) (final r').
Proof.
  intros Hwf Hh Ht Hlen Hrej r r'.
  pose proof (queued_nil p Hwf Ht) as Hq.
  assert (Hw : waiting p = 24)
    by (destruct Hwf as [_ Hc]; now rewrite Hh in Hc).
  destruct (parseHeader_frame p hdr) as (Hn & _ & Hto & _ & Hw').
  specialize (Hw' Hrej Hw).
  destruct (parseHeader p hdr) as [[p' ho] out] eqn:Hph.
  cbn [fst snd] in *. subst ho.
  set (q1 := set_header p' None).
  assert (Hp : parse p hdr = Some (q1, out, HeaderRejected)).
  { unfold parse. rewrite Hlen, Hh, Hph.
    destruct (Z.leb_spec (Z.of_nat 24) MAX_MESSAGE); [ reflexivity | lia ]. }
  destruct (header_turn p q1 hdr rest out HeaderRejected
              Hwf Hh Ht Hlen Hp) as (Hwf2 & E1 & S1 & St & F1).
  set (p2 := set_queue q1 [rest] (Z.of_nat (length rest))) in *.
  assert (Hsame : same_stream p2 (push p rest)).
  { unfold same_stream. rewrite queued_push, Hq.
    unfold p2, q1, queued. cbn. rewrite app_nil_r.
    repeat split; try congruence. lia. }
  destruct (drain_same p2 Hwf2 _ Hsame) as (E2 & S2 & F2).
  fold (feed p rest) in E2, S2, F2. fold r' in E2, S2, F2.
  unfold r. rewrite E1, S1, E2, S2.
  repeat (split; [ first [ reflexivity | exact St ] | ]).
  eapply same_stream_trans; [ exact F1 | exact F2 ].
Qed.


(** X12: a frame with an accepted header, a payload that hashes to the
    checksum of the header and that the codec decodes, fed with any bytes
    behind it to a parser that holds nothing and waits for a header: the
    decoded packet is emitted first, with no error, and the bytes behind
    the frame are then handled exactly as if fed alone. *)
Theorem feed_valid_frame (p : Parser) (hdr payload rest : list byte)
    (h : Header) (m : Packet) :
  well_formed p -> header p = None -> total p = 0 ->
  length hdr = 24%nat ->
  snd (fst (parseHeader p hdr)) = Some h ->
  size h = Z.of_nat (length payload) ->
  readUInt32LE (hash256 payload) 0 = checksum h ->
  fromRaw (cmd h) payload = inl m ->
  let r := feed p (hdr ++ payload ++ rest) in
  let r' := feed p rest in
  emitted r = packet m :: emitted r' /\
  steps r = HeaderAccepted :: PayloadDone :: steps r' /\
  status r = Returned /\
  same_stream (final r) (final r').
Proof.
  intros Hwf Hh Ht Hlen Hacc Hsize Hsum Hraw.
  pose proof (frame_then p hdr payload rest h Hwf Hh Ht Hlen Hacc Hsize)
    as H.
  unfold frame_notification in H.
  rewrite Hsum, Z.eqb_refl, Hraw in H. exact H.
Qed.

(** X13: the same frame when the codec throws [e]: one error carrying [e]
    is emitted, no packet, and the bytes behind the frame are then handled
    as if fed alone. *)
Theorem feed_undecodable_frame (p : Parser) (hdr payload rest : list byte)
    (h : Header) (e : Exn) :
  well_formed p -> header p = None -> total p = 0 ->
  length hdr = 24%nat ->
  snd (fst (parseHeader p hdr)) = Some h ->
  size h = Z.of_nat (length payload) ->
  readUInt32LE (hash256 payload) 0 = checksum h ->
  fromRaw (cmd h) payload = inr e ->
  let r := feed p (hdr ++ payload ++ rest) in
  let r' := feed p rest in
  emitted r = error (DecodeError e) :: emitted r' /\
  steps r = HeaderAccepted :: PayloadDone :: steps r' /\
  status r = Returned /\
  same_stream (final r) (final r').
Proof.
  intros Hwf Hh Ht Hlen Hacc Hsize Hsum Hraw.
  pose proof (frame_then p hdr payload rest h Hwf Hh Ht Hlen Hacc Hsize)
    as H.
  unfold frame_notification in H.
  rewrite Hsum, Z.eqb_refl, Hraw in H. exact H.
Qed.

(** X14: 24 bytes that do not start with the magic of the network make
    the parser emit one InvalidMagic error with the value read; exactly
    those 24 bytes are dropped -- there is no search for the next magic --
    and the bytes behind them are handled as if fed alone. *)
Theorem feed_invalid_magic (p : Parser) (hdr rest : list byte) :
  well_formed p -> header p = None -> total p = 0 ->
  length hdr = 24%nat ->
  readUInt32LE hdr 0 <> magic (network p) ->
  let r := feed p (hdr ++ rest) in
  let r' := feed p rest in
  emitted r = error (InvalidMagic (readUInt32LE hdr 0)) :: emitted r' /\
  steps r = HeaderRejected :: steps r' /\
  status r = Returned /\
  same_stream (final r) (final r').
Proof.
  intros Hwf Hh Ht Hlen Hmagic.
  assert (Hph : parseHeader p hdr
                = (p, None, [error (InvalidMagic (readUInt32LE hdr 0))])).
  { unfold parseHeader.
    destruct (Z.eqb_spec (readUInt32LE hdr 0) (magic (network p)));
      [ contradiction | reflexivity ]. }
  pose proof (rejected_then p hdr rest Hwf Hh Ht Hlen) as H.
  rewrite Hph in H. apply H. reflexivity.
Qed.

(** X15: 24 bytes with the magic of the network and no NUL among the
    twelve bytes of the command field make the parser emit one
    UnterminatedCommand error; the 24 bytes are dropped and the bytes
    behind them are handled as if fed alone. *)
Theorem feed_unterminated_command (p : Parser) (hdr rest : list byte) :
  well_formed p -> header p = None -> total p = 0 ->
  length hdr = 24%nat ->
  readUInt32LE hdr 0 = magic (network p) ->
  (forall i, (i < 12)%nat -> byte_at hdr (i + 4) <> 0) ->
  let r := feed p (hdr ++ rest) in
  let r' := feed p rest in
  emitted r = error UnterminatedCommand :: emitted r' /\
  steps r = HeaderRejected :: steps r' /\
  status r = Returned /\
  same_stream (final r) (final r').
Proof.
  intros Hwf Hh Ht Hlen Hmagic Hcmd.
  destruct (cmd_scan_spec hdr 12 0 eq_refl) as (Hr & _ & Hnul).
  assert (Hscan : cmd_scan 12 hdr 0 = 12%nat).
  { destruct (Nat.eq_dec (cmd_scan 12 hdr 0) 12) as [E | E]; [ exact E | ].
    exfalso. apply (Hcmd (cmd_scan 12 hdr 0)); [ lia | apply Hnul; lia ]. }
  assert (Hph : parseHeader p hdr = (p, None, [error UnterminatedCommand])).
  { unfold parseHeader. rewrite Hscan.
    destruct (Z.eqb_spec (readUInt32LE hdr 0) (magic (network p)));
      [ reflexivity | contradiction ]. }
  pose proof (rejected_then p hdr rest Hwf Hh Ht Hlen) as H.
  rewrite Hph in H. apply H. reflexivity.
Qed.

(** ** Buffering, conservation and bounds *)

(** X16: nothing happens before 24 bytes have arrived: pieces of fewer
    than 24 bytes in all (empty pieces included), fed to a fresh parser,
    emit nothing and run no turn of [parse]; the bytes are all queued, in
    order, and the parser still waits for a header. *)
Theorem feed_short (net : Network) (pieces : list (list byte)) :
  (length (concat pieces) < 24)%nat ->
  let r := feed_all (Parser_new net) pieces in
  emitted r = [] /\ steps r = [] /\ status r = Returned /\
  queued (final r) = concat pieces /\
  total (final r) = Z.of_nat (length (concat pieces)) /\
  waiting (final r) = 24 /\ header (final r) = None.
Proof.
  intros Hshort r.
  destruct (feed_all_concat pieces (Parser_new net) (well_formed_new net))
    as (A1 & A2 & A3 & A4); [ cbn; lia | ].
  assert (Hd : feed (Parser_new net) (concat pieces)
               = mkRun (push (Parser_new net) (concat pieces)) [] [] Returned).
  { unfold feed. apply drain_done. cbn. lia. }
  rewrite Hd in A2, A3, A4. cbn [emitted steps final] in *.
  destruct A4 as (_ & W & H' & T & Q).
  unfold r. rewrite A2, A3, W, H', T, Q, queued_push. cbn.
  repeat split; first [ assumption | lia ].
Qed.

(** The turn of the loop, with what it does to the queue. *)
Lemma iterate_queue (p : Parser) :
  well_formed p -> waiting p <= total p ->
  exists p' out s,
    iterate p = Took p' out s /\
    well_formed p' /\ (weight p' < weight p)%nat /\
    network p' = network p /\
    queued p' = skipn (Z.to_nat (waiting p)) (queued p) /\
    total p' = total p - waiting p /\
    24 * Z.of_nat (length out) + credit p' <= credit p.
Proof.
  intros Hwf Hle. pose proof (well_formed_waiting p Hwf) as Hw0.
  destruct (iterate_turn p Hwf Hle) as (p' & out & s & Hit & Hwf' & Hw & Hn & _).
  destruct (iterate_char p Hwf Hle) as [pend' [Hc Hit']].
  exists p', out, s. rewrite Hit in Hit'.
  split; [ exact Hit | ]. split; [ exact Hwf' | ].
  split; [ exact Hw | ]. split; [ exact Hn | ].
  destruct (parse p _) as [[[p2 o2] s2] | ] eqn:Hp; [ | discriminate ].
  injection Hit' as -> -> ->.
  split; [ exact Hc | ]. split; [ reflexivity | ].
  unfold credit. cbn [total header set_queue].
  destruct Hwf as [_ Hctl].
  unfold parse, parseHeader in Hp.
  destruct (negb (_ <=? MAX_MESSAGE)); [ discriminate | ].
  destruct (header p) as [hd | ].
  - destruct (negb (_ =? checksum hd));
      [ injection Hp as <- <- <-;
        cbn [total header set_queue set_header set_waiting length]; lia | ].
    destruct (fromRaw (cmd hd) _); injection Hp as <- <- <-;
        cbn [total header set_queue set_header set_waiting length]; lia.
  - destruct (negb (_ =? magic (network p)));
      [ injection Hp as <- <- <-;
        cbn [total header set_queue set_header set_waiting length]; lia | ].
    destruct (_ =? 12)%nat; [ injection Hp as <- <- <-;
        cbn [total header set_queue set_header set_waiting length]; lia | ].
    destruct (_ >? MAX_MESSAGE); injection Hp as <- <- <-;
        cbn [total header set_queue set_header set_waiting length]; lia.
Qed.

Lemma drain_queue :
  forall p : Parser,
    well_formed p ->
    (exists n : nat,
       (n <= length (queued p))%nat /\
       queued (final (drain p)) = skipn n (queued p) /\
       total (final (drain p)) = total p - Z.of_nat n) /\
    network (final (drain p)) = network p /\
    24 * Z.of_nat (length (emitted (drain p))) + credit (final (drain p))
    <= credit p.
Proof.
  induction p as [p IH] using weight_ind. intros Hwf.
  rewrite (drain_unfold p Hwf).
  destruct (total p >=? waiting p) eqn:Hc.
  - apply geb_true in Hc.
    pose proof (well_formed_waiting p Hwf) as Hw0.
    destruct (iterate_queue p Hwf Hc)
      as (p' & out & s & Hit & Hwf' & Hw & Hn & Hq & Ht & Hcr).
    rewrite Hit. cbn [final emitted].
    destruct (IH p' Hw Hwf') as ((n & Hn1 & Hn2 & Hn3) & Hnet & Hcred).
    split; [ | split; [ congruence | rewrite length_app; lia ] ].
    exists (n + Z.to_nat (waiting p))%nat.
    rewrite Hq, length_skipn in Hn1. rewrite Hq, skipn_skipn in Hn2.
    destruct Hwf as [Htot _].
    split; [ lia | ]. split; [ exact Hn2 | lia ].
  - cbn [final emitted]. split; [ | split; [ reflexivity | cbn; lia ] ].
    exists 0%nat. cbn. split; [ lia | ]. split; [ reflexivity | lia ].
Qed.

(** X17: the parser neither reorders nor invents bytes: after a [feed]
    call the queued bytes are what is left of the bytes queued before
    followed by the data, once some number of leading bytes is taken off;
    [total] counts them, and the network is the same. *)
Theorem feed_consumes_prefix (p : Parser) (data : list byte) :
  well_formed p ->
  exists n : nat,
    (n <= length (queued p ++ data))%nat /\
    queued (final (feed p data)) = skipn n (queued p ++ data) /\
    total (final (feed p data))
    = total p + Z.of_nat (length data) - Z.of_nat n /\
    network (final (feed p data)) = network p.
Proof.
  intros Hwf. unfold feed.
  destruct (drain_queue _ (well_formed_push p data Hwf))
    as ((n & H1 & H2 & H3) & H4 & _).
  rewrite queued_push in *. exists n. auto.
Qed.

(** X18: feeding [a ++ b] in one call amounts to feeding [a] and then
    [b], from any well-formed state: the notifications of the two calls,
    in order, and the same final state up to how the queued bytes are cut
    into buffers. *)
Theorem feed_app (p : Parser) (a b : list byte) :
  well_formed p ->
  emitted (feed p (a ++ b))
  = emitted (feed p a) ++ emitted (feed (final (feed p a)) b) /\
  steps (feed p (a ++ b))
  = steps (feed p a) ++ steps (feed (final (feed p a)) b) /\
  same_stream (final (feed p (a ++ b))) (final (feed (final (feed p a)) b)).
Proof.
  intros Hwf. unfold feed.
  pose proof (well_formed_push p a Hwf) as Hwfa.
  destruct (drain_push _ Hwfa b) as (D1 & D2 & D3).
  destruct (drain_same _ (well_formed_push _ b Hwfa) _ (push_push_same p a b))
    as (S1 & S2 & S3).
  rewrite <- S1, <- S2, D1, D2.
  split; [ reflexivity | ]. split; [ reflexivity | ].
  eapply same_stream_trans; [ apply same_stream_sym; exact S3 | exact D3 ].
Qed.

(** X19: a [feed] call emits at most one notification per 24 bytes at
    hand: 24 times the number of notifications is at most the bytes queued
    before plus the bytes fed, plus 24 when a header was already
    accepted. *)
Theorem feed_notification_bound (p : Parser) (data : list byte) :
  well_formed p ->
  24 * Z.of_nat (length (emitted (feed p data)))
  <= credit p + Z.of_nat (length data).
Proof.
  intros Hwf. unfold feed.
  pose proof (well_formed_push p data Hwf) as Hwfp.
  destruct (drain_queue _ Hwfp) as (_ & _ & Hcred).
  destruct (drain_rest _ Hwfp) as (_ & [Htot _] & _).
  assert (Hc : credit (push p data) = credit p + Z.of_nat (length data))
    by (unfold credit; cbn; lia).
  assert (H0 : 0 <= credit (final (drain (push p data)))).
  { unfold credit. destruct (header _); lia. }
  lia.
Qed.

End PacketParser.


Arguments error {Packet Exn} reason.
Arguments packet {Packet Exn} payload.
Arguments InvalidMagic {Exn} magic.
Arguments UnterminatedCommand {Exn}.
Arguments OversizePacket {Exn} size.
Arguments InvalidChecksum {Exn} checksum.
Arguments DecodeError {Exn} e.
Arguments mkRun {Packet Exn}.
Arguments final {Packet Exn}.
Arguments emitted {Packet Exn}.
Arguments steps {Packet Exn}.
Arguments status {Packet Exn}.
Arguments parseHeader MAX_MESSAGE {Packet Exn}.
Arguments parse MAX_MESSAGE {Packet Exn}.
Arguments iterate MAX_MESSAGE {Packet Exn}.
Arguments feed_loop MAX_MESSAGE {Packet Exn}.
Arguments drain MAX_MESSAGE {Packet Exn}.
Arguments feed MAX_MESSAGE {Packet Exn}.
Arguments feed_all MAX_MESSAGE {Packet Exn}.
Arguments frame_notification {Packet Exn}.

(** ** The parser on sample frames *)

Lemma feed_partition_witness :
  let pieces :=
    [firstn 5 (sample_header [x02; x00; x00; x00] x02);
     skipn 5 (sample_header [x02; x00; x00; x00] x02) ++ [x07];
     [];
     [x08; xf9; xbe]] in
  emitted (feed_all sample_MAX_MESSAGE sample_hash256 sample_fromRaw
             (Parser_new sample_network) pieces)
  = emitted (feed sample_MAX_MESSAGE sample_hash256 sample_fromRaw
               (Parser_new sample_network) (concat pieces))
  /\ status (feed_all sample_MAX_MESSAGE sample_hash256 sample_fromRaw
               (Parser_new sample_network) pieces) = Returned
  /\ status (feed sample_MAX_MESSAGE sample_hash256 sample_fromRaw
               (Parser_new sample_network) (concat pieces)) = Returned
  /\ same_stream
       (final (feed_all sample_MAX_MESSAGE sample_hash256 sample_fromRaw
                 (Parser_new sample_network) pieces))
       (final (feed sample_MAX_MESSAGE sample_hash256 sample_fromRaw
                 (Parser_new sample_network) (concat pieces))).
Proof.
  intros pieces.
  apply (feed_partition sample_MAX_MESSAGE _ _ sample_hash256 sample_fromRaw).
  unfold sample_MAX_MESSAGE. lia.
Defined.

Lemma parser_at_rest_witness :
  let r :=
    feed_all sample_MAX_MESSAGE sample_hash256 sample_fromRaw
      (Parser_new sample_network)
      [sample_header [x02; x00; x00; x00] x02; [x07]] in
  status r = Returned /\
  total (final r) < waiting (final r) /\
  (header (final r) <> None <-> last_step (steps r) = Some HeaderAccepted) /\
  (waiting (final r) = 24 \/
   exists h, header (final r) = Some h /\ waiting (final r) = size h /\
             0 <= size h <= sample_MAX_MESSAGE).
Proof.
  apply (parser_at_rest sample_MAX_MESSAGE _ _ sample_hash256 sample_fromRaw).
  unfold sample_MAX_MESSAGE. lia.
Defined.

Lemma feed_bad_checksum_witness :
  let hdr := sample_header [x02; x00; x00; x00] x03 in
  let r :=
    feed_all sample_MAX_MESSAGE sample_hash256 sample_fromRaw
      (Parser_new sample_network)
      [firstn 5 hdr; skipn 5 hdr ++ [x07]; [x08]] in
  emitted r = [error (InvalidChecksum 2)] /\
  steps r = [HeaderAccepted; PayloadDone] /\
  status r = Returned /\
  waiting (final r) = 24 /\ header (final r) = None /\ total (final r) = 0.
Proof.
  apply (feed_bad_checksum sample_MAX_MESSAGE _ _ sample_hash256
           sample_fromRaw ltac:(unfold sample_MAX_MESSAGE; lia)
           (Parser_new sample_network)
           (sample_header [x02; x00; x00; x00] x03) [x07; x08]
           (mkHeader "ping" 2 3)).
  - split; reflexivity.
  - reflexivity.
  - reflexivity.
  - reflexivity.
  - reflexivity.
  - reflexivity.
  - vm_compute. discriminate.
  - reflexivity.
Defined.

Lemma feed_oversize_witness :
  let hdr := sample_header [x01; x09; x3d; x00] x00 in
  let r :=
    feed sample_MAX_MESSAGE sample_hash256 sample_fromRaw
      (Parser_new sample_network) (hdr ++ [x07; x08]) in
  let r' :=
    feed sample_MAX_MESSAGE sample_hash256 sample_fromRaw
      (Parser_new sample_network) [x07; x08] in
  status r = Returned /\
  emitted r = error (OversizePacket (readUInt32LE hdr 16)) :: emitted r' /\
  steps r = HeaderRejected :: steps r' /\
  same_stream (final r) (final r') /\
  ((length [x07; x08] < 24)%nat ->
   emitted r = [error (OversizePacket (readUInt32LE hdr 16))] /\
   waiting (final r) = 24 /\ header (final r) = None /\
   total (final r) = Z.of_nat (length [x07; x08]) /\
   queued (final r) = [x07; x08]).
Proof.
  apply (feed_oversize sample_MAX_MESSAGE _ _ sample_hash256 sample_fromRaw
           ltac:(unfold sample_MAX_MESSAGE; lia)
           (Parser_new sample_network)
           (sample_header [x01; x09; x3d; x00] x00) [x07; x08]).
  - split; reflexivity.
  - reflexivity.
  - reflexivity.
  - reflexivity.
  - reflexivity.
  - vm_compute. discriminate.
  - reflexivity.
Defined.

(** ** Further sample frames *)

Lemma feed_valid_frame_witness :
  let hdr := sample_header [x02; x00; x00; x00] x02 in
  let r :=
    feed sample_MAX_MESSAGE sample_hash256 sample_fromRaw
      (Parser_new sample_network) (hdr ++ [x07; x08] ++ [xf9]) in
  let r' :=
    feed sample_MAX_MESSAGE sample_hash256 sample_fromRaw
      (Parser_new sample_network) [xf9] in
  emitted r = packet ("ping"%string, [x07; x08]) :: emitted r' /\
  steps r = HeaderAccepted :: PayloadDone :: steps r' /\
  status r = Returned /\
  same_stream (final r) (final r').
Proof.
  apply (feed_valid_frame sample_MAX_MESSAGE _ _ sample_hash256
           sample_fromRaw ltac:(unfold sample_MAX_MESSAGE; lia)
           (Parser_new sample_network)
           (sample_header [x02; x00; x00; x00] x02) [x07; x08] [xf9]
           (mkHeader "ping" 2 2) ("ping"%string, [x07; x08])).
  - split; reflexivity.
  - reflexivity.
  - reflexivity.
  - reflexivity.
  - reflexivity.
  - reflexivity.
  - reflexivity.
  - reflexivity.
Defined.

Lemma feed_undecodable_frame_witness :
  let hdr := sample_header [x02; x00; x00; x00] x02 in
  let refuse := fun (_ : string) (_ : list byte) => @inr unit unit tt in
  let r :=
    feed sample_MAX_MESSAGE sample_hash256 refuse
      (Parser_new sample_network) (hdr ++ [x07; x08] ++ [xf9]) in
  let r' :=
    feed sample_MAX_MESSAGE sample_hash256 refuse
      (Parser_new sample_network) [xf9] in
  emitted r = error (DecodeError tt) :: emitted r' /\
  steps r = HeaderAccepted :: PayloadDone :: steps r' /\
  status r = Returned /\
  same_stream (final r) (final r').
Proof.
  apply (feed_undecodable_frame sample_MAX_MESSAGE unit unit sample_hash256
           (fun _ _ => inr tt) ltac:(unfold sample_MAX_MESSAGE; lia)
           (Parser_new sample_network)
           (sample_header [x02; x00; x00; x00] x02) [x07; x08] [xf9]
           (mkHeader "ping" 2 2) tt).
  - split; reflexivity.
  - reflexivity.
  - reflexivity.
  - reflexivity.
  - reflexivity.
  - reflexivity.
  - reflexivity.
  - reflexivity.
Defined.

Lemma feed_invalid_magic_witness :
  let hdr := repeat x00 24 in
  let r :=
    feed sample_MAX_MESSAGE sample_hash256 sample_fromRaw
      (Parser_new sample_network) (hdr ++ [xf9]) in
  let r' :=
    feed sample_MAX_MESSAGE sample_hash256 sample_fromRaw
      (Parser_new sample_network) [xf9] in
  emitted r = error (InvalidMagic (readUInt32LE hdr 0)) :: emitted r' /\
  steps r = HeaderRejected :: steps r' /\
  status r = Returned /\
  same_stream (final r) (final r').
Proof.
  apply (feed_invalid_magic sample_MAX_MESSAGE _ _ sample_hash256
           sample_fromRaw ltac:(unfold sample_MAX_MESSAGE; lia)
           (Parser_new sample_network) (repeat x00 24) [xf9]).
  - split; reflexivity.
  - reflexivity.
  - reflexivity.
  - reflexivity.
  - vm_compute. discriminate.
Defined.

Lemma feed_unterminated_command_witness :
  let hdr := [xf9; xbe; xb4; xd9] ++ repeat x61 12 ++ repeat x00 8 in
  let r :=
    feed sample_MAX_MESSAGE sample_hash256 sample_fromRaw
      (Parser_new sample_network) (hdr ++ [xf9]) in
  let r' :=
    feed sample_MAX_MESSAGE sample_hash256 sample_fromRaw
      (Parser_new sample_network) [xf9] in
  emitted r = error UnterminatedCommand :: emitted r' /\
  steps r = HeaderRejected :: steps r' /\
  status r = Returned /\
  same_stream (final r) (final r').
Proof.
  apply (feed_unterminated_command sample_MAX_MESSAGE _ _ sample_hash256
           sample_fromRaw ltac:(unfold sample_MAX_MESSAGE; lia)
           (Parser_new sample_network)
           ([xf9; xbe; xb4; xd9] ++ repeat x61 12 ++ repeat x00 8) [xf9]).
  - split; reflexivity.
  - reflexivity.
  - reflexivity.
  - reflexivity.
  - reflexivity.
  - intros i Hi.
    do 12 (destruct i as [ | i]; [ vm_compute; discriminate | ]). lia.
Defined.

Lemma feed_short_witness :
  let r :=
    feed_all sample_MAX_MESSAGE sample_hash256 sample_fromRaw
      (Parser_new sample_network) [[xf9; xbe]; []; [xb4]] in
  emitted r = [] /\ steps r = [] /\ status r = Returned /\
  queued (final r) = concat [[xf9; xbe]; []; [xb4]] /\
  total (final r) = Z.of_nat (length (concat [[xf9; xbe]; []; [xb4]])) /\
  waiting (final r) = 24 /\ header (final r) = None.
Proof.
  apply (feed_short sample_MAX_MESSAGE _ _ sample_hash256 sample_fromRaw
           ltac:(unfold sample_MAX_MESSAGE; lia)
           sample_network [[xf9; xbe]; []; [xb4]]).
  cbn. lia.
Defined.

Lemma feed_consumes_prefix_witness :
  let p := Parser_new sample_network in
  let data := sample_header [x02; x00; x00; x00] x02 ++ [x07] in
  exists n : nat,
    (n <= length (queued p ++ data))%nat /\
    queued (final (feed sample_MAX_MESSAGE sample_hash256 sample_fromRaw
                     p data))
    = skipn n (queued p ++ data) /\
    total (final (feed sample_MAX_MESSAGE sample_hash256 sample_fromRaw
                    p data))
    = total p + Z.of_nat (length data) - Z.of_nat n /\
    network (final (feed sample_MAX_MESSAGE sample_hash256 sample_fromRaw
                      p data))
    = network p.
Proof.
  apply (feed_consumes_prefix sample_MAX_MESSAGE _ _ sample_hash256
           sample_fromRaw ltac:(unfold sample_MAX_MESSAGE; lia)
           (Parser_new sample_network)
           (sample_header [x02; x00; x00; x00] x02 ++ [x07])).
  split; reflexivity.
Defined.

Lemma feed_app_witness :
  let p := Parser_new sample_network in
  let a := sample_header [x02; x00; x00; x00] x02 ++ [x07] in
  let b := [x08; xf9] in
  let f := feed sample_MAX_MESSAGE sample_hash256 sample_fromRaw in
  emitted (f p (a ++ b)) = emitted (f p a) ++ emitted (f (final (f p a)) b) /\
  steps (f p (a ++ b)) = steps (f p a) ++ steps (f (final (f p a)) b) /\
  same_stream (final (f p (a ++ b))) (final (f (final (f p a)) b)).
Proof.
  apply (feed_app sample_MAX_MESSAGE _ _ sample_hash256 sample_fromRaw
           ltac:(unfold sample_MAX_MESSAGE; lia)
           (Parser_new sample_network)
           (sample_header [x02; x00; x00; x00] x02 ++ [x07]) [x08; xf9]).
  split; reflexivity.
Defined.

Lemma feed_notification_bound_witness :
  let p := Parser_new sample_network in
  let data := sample_header [x02; x00; x00; x00] x02 ++ [x07; x08] in
  24 * Z.of_nat
         (length (emitted (feed sample_MAX_MESSAGE sample_hash256
                             sample_fromRaw p data)))
  <= credit p + Z.of_nat (length data).
Proof.
  apply (feed_notification_bound sample_MAX_MESSAGE _ _ sample_hash256
           sample_fromRaw ltac:(unfold sample_MAX_MESSAGE; lia)
           (Parser_new sample_network)
           (sample_header [x02; x00; x00; x00] x02 ++ [x07; x08])).
  split; reflexivity.
Defined.

(** * Properties *)

(** ** The subsidy schedule *)

(** Decide the outermost band test of the schedule: in the branch where it
    holds, its two comparisons become hypotheses. *)
Ltac band_case :=
  match goal with
  | |- context [if ?c then _ else _] =>
      let E := fresh "E" in
      destruct c eqn:E;
      [ try (apply andb_true_iff in E;
             let E1 := fresh "E" in
             let E2 := fresh "E" in
             destruct E as [E1 E2];
             apply Z.leb_le in E1; apply Z.gtb_lt in E2)
      | clear E ]
  end.

(** The band test that holds for the height at hand: its branch is the
    result, the bands tested after it having been skipped. *)
Ltac band_hit :=
  match goal with
  | |- context [if ?c then _ else _] =>
      let E := fresh "E" in
      destruct c eqn:E;
      [ reflexivity
      | exfalso;
        rewrite andb_false_iff, Z.leb_gt, Z.gtb_ltb, Z.ltb_ge in E; lia ]
  end.

Lemma getReward_defined (I : Type) (h : Z) (i : I) :
  0 <= h -> exists r, getReward h i = Some r.
Proof.
  intros Hh. unfold getReward.
  destruct (h >=? 0) eqn:E; [ simpl; eauto | ].
  rewrite Z.geb_leb in E. apply Z.leb_gt in E. lia.
Qed.

(** C8: for every height [h >= 0], [getReward h] returns an amount between
    0 and 12,226,641 COIN, and the amount is 0 for every
    [h > 24157817]. *)
Theorem getReward_bounds (I : Type) (h : Z) (i : I) :
  0 <= h ->
  exists r, getReward h i = Some r /\
            0 <= r <= 12226641 * COIN /\
            (24157817 < h -> r = 0).
Proof.
  intros Hh. unfold getReward.
  destruct (h >=? 0) eqn:E;
    [ | rewrite Z.geb_leb in E; apply Z.leb_gt in E; lia ].
  simpl negb. cbv iota zeta. eexists. split; [ reflexivity | ].
  unfold COIN. split.
  - repeat (band_case; [ lia | ]). lia.
  - intros Hbig. repeat (band_case; [ lia | ]).
    destruct (h <? 2) eqn:E1; [ apply Z.ltb_lt in E1 | ]; lia.
Qed.

Lemma getReward_bounds_witness :
  exists r, getReward 24157818 tt = Some r /\
            0 <= r <= 12226641 * COIN /\
            (24157817 < 24157818 -> r = 0).
Proof. apply (getReward_bounds unit 24157818 tt). lia. Defined.

(** The band of 21 COIN as the code pays it: it stops at 196148, where the
    test of the next band starts to hold. *)
Lemma getReward_band_21 (I : Type) (h : Z) (i : I) :
  121394 <= h <= 196148 -> getReward h i = Some (21 * COIN).
Proof.
  intros Hh. unfold getReward.
  destruct (h >=? 0) eqn:E;
    [ | rewrite Z.geb_leb in E; apply Z.leb_gt in E; lia ].
  simpl negb. cbv iota zeta. f_equal.
  repeat (band_case; [ exfalso; lia | ]). band_hit.
Qed.

Lemma getReward_band_34_low (I : Type) (h : Z) (i : I) :
  196149 <= h <= 317811 -> getReward h i = Some (34 * COIN).
Proof.
  intros Hh. unfold getReward.
  destruct (h >=? 0) eqn:E;
    [ | rewrite Z.geb_leb in E; apply Z.leb_gt in E; lia ].
  simpl negb. cbv iota zeta. f_equal.
  repeat (band_case; [ exfalso; lia | ]). band_hit.
Qed.

(** C1: the schedule table gives 21 COIN to every height from 121394 to
    196418, but the code gives 34 COIN to height 196149, which lies in that
    range: the lower bound of the next band is written 196148 instead of
    196418. *)
Theorem getReward_196149 :
  121394 <= 196149 <= 196418 /\
  getReward 196149 tt = Some (34 * COIN) /\
  getReward 196149 tt <> Some (21 * COIN).
Proof.
  split; [ lia | ]. split; [ reflexivity | ].
  intros H. vm_compute in H. discriminate H.
Qed.

(** C10: the result of [getReward] does not depend on its second
    argument, whatever the two values (and their types) are. *)
Theorem getReward_interval_unused (I J : Type) (h : Z) (i1 : I) (i2 : J) :
  getReward h i1 = getReward h i2.
Proof. reflexivity. Qed.

(** ** 32-bit operators on values in range *)

Lemma ToInt32_small (x : Z) : - 2 ^ 31 <= x < 2 ^ 31 -> JS.ToInt32 x = x.
Proof.
  intros H. unfold JS.ToInt32. rewrite Z.mod_small; lia.
Qed.

Lemma ToUint32_small (x : Z) : 0 <= x < 2 ^ 32 -> JS.ToUint32 x = x.
Proof. intros H. unfold JS.ToUint32. apply Z.mod_small. lia. Qed.

Lemma shift_count_small (n : Z) : 0 <= n < 32 -> JS.shift_count n = n.
Proof.
  intros H. unfold JS.shift_count.
  rewrite ToUint32_small by lia. apply Z.mod_small. lia.
Qed.

Lemma ToInt32_mod (x : Z) : JS.ToInt32 x mod 2 ^ 32 = x mod 2 ^ 32.
Proof.
  unfold JS.ToInt32. rewrite Zminus_mod_idemp_l. f_equal. lia.
Qed.

Lemma ToInt32_testbit (x i : Z) :
  0 <= i < 32 -> Z.testbit (JS.ToInt32 x) i = Z.testbit x i.
Proof.
  intros H.
  rewrite <- (Z.mod_pow2_bits_low (JS.ToInt32 x) 32 i) by lia.
  rewrite <- (Z.mod_pow2_bits_low x 32 i) by lia.
  now rewrite ToInt32_mod.
Qed.

Lemma testbit_above (a n i : Z) :
  0 <= a < 2 ^ n -> n <= i -> Z.testbit a i = false.
Proof.
  intros Ha Hi. destruct (Z.eq_dec a 0) as [-> | Hnz].
  - apply Z.bits_0.
  - apply Z.bits_above_log2; [ lia | ].
    assert (Z.log2 a < n) by (apply Z.log2_lt_pow2; lia). lia.
Qed.

Lemma shl_small (a n : Z) :
  0 <= n < 32 -> - 2 ^ 31 <= a < 2 ^ 31 -> - 2 ^ 31 <= a * 2 ^ n < 2 ^ 31 ->
  JS.shl a n = a * 2 ^ n.
Proof.
  intros Hn Ha Hr. unfold JS.shl.
  rewrite shift_count_small, (ToInt32_small a), Z.shiftl_mul_pow2 by lia.
  apply ToInt32_small. lia.
Qed.

Lemma sar_small (a n : Z) :
  0 <= n < 32 -> - 2 ^ 31 <= a < 2 ^ 31 -> JS.sar a n = a / 2 ^ n.
Proof.
  intros Hn Ha. unfold JS.sar.
  rewrite shift_count_small, ToInt32_small, Z.shiftr_div_pow2 by lia.
  reflexivity.
Qed.

Lemma shr_small (a n : Z) :
  0 <= n < 32 -> 0 <= a < 2 ^ 32 -> JS.shr a n = a / 2 ^ n.
Proof.
  intros Hn Ha. unfold JS.shr.
  rewrite shift_count_small, ToUint32_small, Z.shiftr_div_pow2 by lia.
  reflexivity.
Qed.

Lemma and_small (a b : Z) :
  - 2 ^ 31 <= a < 2 ^ 31 -> - 2 ^ 31 <= b < 2 ^ 31 ->
  JS.and a b = Z.land a b.
Proof.
  intros Ha Hb. unfold JS.and. now rewrite !ToInt32_small by lia.
Qed.

Lemma or_small (a b : Z) :
  - 2 ^ 31 <= a < 2 ^ 31 -> - 2 ^ 31 <= b < 2 ^ 31 ->
  JS.or a b = Z.lor a b.
Proof.
  intros Ha Hb. unfold JS.or. now rewrite !ToInt32_small by lia.
Qed.

(** [a & b] seen as an unsigned word is the bitwise and of the words. *)
Lemma and_uint32 (a b : Z) :
  0 <= a < 2 ^ 32 -> 0 <= b < 2 ^ 32 ->
  JS.ToUint32 (JS.and a b) = Z.land a b.
Proof.
  intros Ha Hb. unfold JS.ToUint32, JS.and.
  apply Z.bits_inj'. intros n Hn.
  destruct (Z.lt_ge_cases n 32) as [Hlt | Hge].
  - rewrite Z.mod_pow2_bits_low by lia.
    rewrite !Z.land_spec, !ToInt32_testbit by lia. reflexivity.
  - rewrite Z.mod_pow2_bits_high by lia.
    rewrite Z.land_spec, (testbit_above a 32 n) by lia. reflexivity.
Qed.

(** Masking with a single bit tests that bit. *)
Lemma land_pow2_eqb (a n : Z) :
  0 <= n -> (Z.land a (2 ^ n) =? 0) = negb (Z.testbit a n).
Proof.
  intros Hn. destruct (Z.testbit a n) eqn:Hb; simpl.
  - apply Z.eqb_neq. intros H0.
    assert (Hbit : Z.testbit (Z.land a (2 ^ n)) n = true).
    { rewrite Z.land_spec, Hb, Z.pow2_bits_true by lia. reflexivity. }
    rewrite H0, Z.bits_0 in Hbit. discriminate.
  - apply Z.eqb_eq. apply Z.bits_inj'. intros m Hm.
    rewrite Z.land_spec, Z.bits_0, Z.pow2_bits_eqb by lia.
    destruct (Z.eqb_spec n m) as [-> | Hne].
    + rewrite Hb. reflexivity.
    + apply andb_false_r.
Qed.

(** The top bit of a value that fits in [n + 1] bits. *)
Lemma testbit_top (a n : Z) :
  0 <= n -> 0 <= a < 2 ^ (n + 1) -> Z.testbit a n = (2 ^ n <=? a).
Proof.
  intros Hn Ha. rewrite Z.pow_add_r, Z.pow_1_r in Ha by lia.
  assert (Hp : 0 < 2 ^ n) by (apply Z.pow_pos_nonneg; lia).
  rewrite Z.testbit_odd, Z.shiftr_div_pow2 by lia.
  destruct (Z.leb_spec (2 ^ n) a) as [Hle | Hlt].
  - assert (H1 : a / 2 ^ n = 1).
    { symmetry. apply (Z.div_unique a (2 ^ n) 1 (a - 2 ^ n)); lia. }
    now rewrite H1.
  - now rewrite Z.div_small by lia.
Qed.

(** ** Version bits *)

(** C9: for a 32-bit [version] and a bit index from 0 to 28, [hasBit]
    holds exactly when the top three bits of [version] are [001] and bit
    [bit] of [version] is set; the three sample values of the spec
    follow. *)
Theorem hasBit_spec (version bit : Z) :
  0 <= version < 2 ^ 32 -> 0 <= bit <= 28 ->
  (hasBit version bit = true <->
   Z.land version 0xE0000000 = 0x20000000 /\ Z.testbit version bit = true)
  /\ hasBit 0x20000001 0 = true
  /\ hasBit 0x40000001 0 = false
  /\ hasBit 0x20000000 0 = false.
Proof.
  intros Hv Hb. split; [ | repeat split; reflexivity ].
  unfold hasBit, VERSION_TOP_MASK, VERSION_TOP_BITS.
  assert (Hp : 0 < 2 ^ bit < 2 ^ 29).
  { split; [ apply Z.pow_pos_nonneg; lia | apply Z.pow_lt_mono_r; lia ]. }
  assert (Hbits : JS.shr (JS.and version 0xe0000000) 0
                  = Z.land version 0xe0000000).
  { unfold JS.shr. rewrite shift_count_small, Z.shiftr_0_r by lia.
    apply and_uint32; lia. }
  assert (Hmask : JS.shl 1 bit = 2 ^ bit).
  { rewrite shl_small; lia. }
  rewrite Hbits, Hmask. unfold JS.and at 1.
  rewrite (ToInt32_small (2 ^ bit)) by lia.
  rewrite land_pow2_eqb, negb_involutive, ToInt32_testbit by lia.
  rewrite andb_true_iff, Z.eqb_eq. reflexivity.
Qed.

Lemma hasBit_spec_witness :
  (hasBit 0x20000001 0 = true <->
   Z.land 0x20000001 0xE0000000 = 0x20000000 /\
   Z.testbit 0x20000001 0 = true)
  /\ hasBit 0x20000001 0 = true
  /\ hasBit 0x40000001 0 = false
  /\ hasBit 0x20000000 0 = false.
Proof. apply (hasBit_spec 0x20000001 0); lia. Defined.

(** ** Proof of work *)

Lemma sum_scale (f : nat -> Z) (c : Z) (l : list nat) :
  fold_right Z.add 0 (map (fun i => c * f i) l)
  = c * fold_right Z.add 0 (map f l).
Proof.
  induction l as [ | i l IH]; simpl; [ lia | rewrite IH; lia ].
Qed.

(** [new BN(buf, 'le')] is the little-endian reading of [buf]. *)
Lemma of_le_value (buf : list byte) : BN.of_le buf = le_value buf.
Proof.
  unfold le_value. induction buf as [ | b rest IH]; [ reflexivity | ].
  cbn [BN.of_le length seq map fold_right].
  rewrite <- seq_shift, map_map.
  rewrite (map_ext _ (fun i => 256 * (byte_at rest i * 256 ^ Z.of_nat i))).
  - rewrite sum_scale, <- IH. unfold byte_at. cbn [nth]. lia.
  - intros i. unfold byte_at. cbn [nth].
    rewrite Nat2Z.inj_succ, Z.pow_succ_r by lia. lia.
Qed.

Lemma le_value_nonneg (buf : list byte) : 0 <= le_value buf.
Proof.
  rewrite <- of_le_value.
  induction buf as [ | b rest IH]; cbn [BN.of_le]; lia.
Qed.

(** C2: [verifyPOW] is [false] when the decoded target is negative or
    zero, and otherwise holds exactly when the little-endian reading of
    the hash is at most the target; neither the network descriptor nor
    the block enters the result. *)
Theorem verifyPOW_spec (network : Network) (block : AbstractBlock)
    (hash : list byte) (bits : Z) :
  verifyPOW network block hash bits
  = (0 <? fromCompact bits) && (le_value hash <=? fromCompact bits)
  /\ forall (network' : Network) (block' : AbstractBlock),
       verifyPOW network' block' hash bits
       = verifyPOW network block hash bits.
Proof.
  split; [ | reflexivity ].
  unfold verifyPOW, BN.isNeg, BN.isZero, BN.gt.
  rewrite of_le_value, Z.gtb_ltb.
  destruct (Z.ltb_spec (fromCompact bits) 0),
           (Z.eqb_spec (fromCompact bits) 0),
           (Z.ltb_spec 0 (fromCompact bits)),
           (Z.ltb_spec (fromCompact bits) (le_value hash)),
           (Z.leb_spec (le_value hash) (fromCompact bits));
    simpl; try reflexivity; lia.
Qed.

(** ** Compact targets *)

Lemma byteLength_zero : BN.byteLength 0 = 0.
Proof. reflexivity. Qed.

(** A positive number of byte length [e] lies in
    [[256^(e-1), 256^e)]. *)
Lemma byteLength_bounds (x : Z) :
  0 < x ->
  1 <= BN.byteLength x /\
  2 ^ (8 * (BN.byteLength x - 1)) <= x < 2 ^ (8 * BN.byteLength x).
Proof.
  intros Hx. unfold BN.byteLength, BN.bitLength.
  destruct (Z.eqb_spec x 0) as [-> | _]; [ lia | ].
  rewrite Z.abs_eq by lia.
  pose proof (Z.log2_nonneg x) as HL.
  destruct (Z.log2_spec x Hx) as [Hlo Hhi].
  set (L := Z.log2 x) in *.
  pose proof (Z.div_mod (L + 1 + 7) 8 ltac:(lia)) as Hdm.
  pose proof (Z.mod_pos_bound (L + 1 + 7) 8 ltac:(lia)) as Hmb.
  set (e := (L + 1 + 7) / 8) in *.
  split; [ lia | split ].
  - apply Z.le_trans with (2 ^ L); [ apply Z.pow_le_mono_r; lia | lia ].
  - apply Z.lt_le_trans with (2 ^ Z.succ L);
      [ lia | apply Z.pow_le_mono_r; lia ].
Qed.

(** An exponent and a mantissa under [2^24] occupy disjoint bits. *)
Lemma lor_pack (E m : Z) :
  0 <= m < 2 ^ 24 -> Z.lor (E * 2 ^ 24) m = E * 2 ^ 24 + m.
Proof.
  intros Hm.
  assert (Hdisj : Z.land (E * 2 ^ 24) m = 0).
  { apply Z.bits_inj'. intros n Hn. rewrite Z.land_spec, Z.bits_0.
    destruct (Z.lt_ge_cases n 24) as [Hlt | Hge].
    - rewrite Z.mul_pow2_bits_low by lia. reflexivity.
    - rewrite (testbit_above m 24 n) by lia. apply andb_false_r. }
  rewrite <- Z.lxor_lor by exact Hdisj.
  symmetry. apply Z.add_nocarry_lxor. exact Hdisj.
Qed.

(** Decoding a compact number given by its exponent and its 23-bit
    mantissa, sign bit clear. *)
Lemma fromCompact_pack (E m : Z) :
  0 <= E < 128 -> 0 <= m < 2 ^ 23 ->
  fromCompact (E * 2 ^ 24 + m)
  = if E <=? 3 then m / 2 ^ (8 * (3 - E)) else m * 2 ^ (8 * (E - 3)).
Proof.
  intros HE Hm. unfold fromCompact, BN.of_number.
  set (c := E * 2 ^ 24 + m).
  assert (Hc : 0 <= c < 2 ^ 31) by (unfold c; lia).
  assert (Hexp : JS.shr c 24 = E).
  { rewrite shr_small by lia. unfold c.
    rewrite Z.div_add_l by lia. rewrite Z.div_small by lia. lia. }
  assert (Hneg : JS.and (JS.shr c 23) 1 = 0).
  { rewrite shr_small by lia.
    assert (H23 : c / 2 ^ 23 = 2 * E).
    { unfold c. replace (E * 2 ^ 24) with (2 * E * 2 ^ 23) by lia.
      rewrite Z.div_add_l by lia. rewrite Z.div_small by lia. lia. }
    rewrite H23, and_small by lia.
    change 1 with (Z.ones 1). rewrite Z.land_ones by lia.
    change (2 ^ 1) with 2. rewrite Z.mul_comm. apply Z.mod_mul. lia. }
  assert (Hman : JS.and c 0x7fffff = m).
  { rewrite and_small by lia.
    change 0x7fffff with (Z.ones 23). rewrite Z.land_ones by lia.
    unfold c. replace (E * 2 ^ 24) with (2 * E * 2 ^ 23) by lia.
    rewrite Z.add_comm, Z.mod_add by lia. apply Z.mod_small. lia. }
  destruct (Z.eqb_spec c 0) as [Hz | Hnz].
  - assert (E = 0 /\ m = 0) as [-> ->] by (unfold c in Hz; lia).
    reflexivity.
  - rewrite Hexp, Hneg, Hman. cbn [Z.eqb].
    destruct (Z.leb_spec E 3) as [Hle | Hgt].
    + rewrite shr_small by lia. reflexivity.
    + unfold BN.iushln. rewrite Z.abs_eq, Z.shiftl_mul_pow2 by lia.
      destruct (Z.eq_dec m 0) as [-> | Hm0]; [ reflexivity | ].
      rewrite Z.sgn_pos by lia. lia.
Qed.

Lemma leading_bytes_bounds (x : Z) :
  0 < x -> 2 ^ 16 <= leading_bytes x < 2 ^ 24.
Proof.
  intros Hx. destruct (byteLength_bounds x Hx) as [He [Hlo Hhi]].
  unfold leading_bytes. set (e := BN.byteLength x) in *.
  destruct (Z.leb_spec e 3) as [Hle | Hgt].
  - assert (Hp : 0 < 2 ^ (8 * (3 - e))) by (apply Z.pow_pos_nonneg; lia).
    assert (H16 : 2 ^ 16 = 2 ^ (8 * (e - 1)) * 2 ^ (8 * (3 - e))).
    { rewrite <- Z.pow_add_r by lia. f_equal. lia. }
    assert (H24 : 2 ^ 24 = 2 ^ (8 * e) * 2 ^ (8 * (3 - e))).
    { rewrite <- Z.pow_add_r by lia. f_equal. lia. }
    rewrite H16, H24. split.
    + apply Z.mul_le_mono_nonneg_r; lia.
    + apply Z.mul_lt_mono_pos_r; lia.
  - assert (Hp : 0 < 2 ^ (8 * (e - 3))) by (apply Z.pow_pos_nonneg; lia).
    assert (H16 : 2 ^ (8 * (e - 1)) = 2 ^ (8 * (e - 3)) * 2 ^ 16).
    { rewrite <- Z.pow_add_r by lia. f_equal. lia. }
    assert (H24 : 2 ^ (8 * e) = 2 ^ (8 * (e - 3)) * 2 ^ 24).
    { rewrite <- Z.pow_add_r by lia. f_equal. lia. }
    split.
    + apply Z.div_le_lower_bound; lia.
    + apply Z.div_lt_upper_bound; lia.
Qed.

(** The compact form of a positive number, as exponent and mantissa. *)
Lemma toCompact_pos (x : Z) :
  0 < x -> BN.byteLength x <= 32 ->
  toCompact x
  = if leading_bytes x <? 2 ^ 23
    then BN.byteLength x * 2 ^ 24 + leading_bytes x
    else (BN.byteLength x + 1) * 2 ^ 24 + leading_bytes x / 2 ^ 8.
Proof.
  intros Hx H32.
  destruct (byteLength_bounds x Hx) as [He [Hlo Hhi]].
  pose proof (leading_bytes_bounds x Hx) as Hm.
  unfold toCompact, BN.isZero, BN.isNeg, BN.toNumber.
  destruct (Z.eqb_spec x 0) as [-> | _]; [ lia | ].
  destruct (Z.ltb_spec x 0) as [Hn | _]; [ lia | ].
  assert (Hman :
    (if BN.byteLength x <=? 3
     then JS.shl x (8 * (3 - BN.byteLength x))
     else BN.ushrn x (8 * (BN.byteLength x - 3))) = leading_bytes x).
  { unfold leading_bytes in *. set (e := BN.byteLength x) in *.
    destruct (Z.leb_spec e 3) as [Hle | Hgt].
    - assert (Hp : 1 <= 2 ^ (8 * (3 - e)))
        by (apply (Z.pow_le_mono_r 2 0); lia).
      apply shl_small; lia.
    - unfold BN.ushrn.
      rewrite Z.sgn_pos, Z.abs_eq, Z.shiftr_div_pow2 by lia. lia. }
  rewrite Hman. set (m0 := leading_bytes x) in *.
  set (e := BN.byteLength x) in *.
  assert (Htest : (JS.and m0 0x800000 =? 0) = (m0 <? 2 ^ 23)).
  { rewrite and_small by lia. change 0x800000 with (2 ^ 23).
    rewrite land_pow2_eqb, (testbit_top m0 23) by lia.
    rewrite Z.ltb_antisym. reflexivity. }
  rewrite Htest.
  destruct (Z.ltb_spec m0 (2 ^ 23)) as [Hlt | Hge].
  - rewrite (shl_small e 24), or_small, lor_pack by lia.
    rewrite shr_small by lia. apply Z.div_1_r.
  - assert (Hm8 : 2 ^ 15 <= m0 / 2 ^ 8 < 2 ^ 16).
    { split; [ apply Z.div_le_lower_bound | apply Z.div_lt_upper_bound ];
        lia. }
    rewrite (sar_small m0 8) by lia.
    rewrite (shl_small (e + 1) 24), or_small, lor_pack by lia.
    rewrite shr_small by lia. apply Z.div_1_r.
Qed.

Lemma leading_bit_spec (x : Z) :
  0 < x -> leading_bit x = negb (leading_bytes x <? 2 ^ 23).
Proof.
  intros Hx. destruct (byteLength_bounds x Hx) as [He [Hlo Hhi]].
  unfold leading_bit, leading_bytes. set (e := BN.byteLength x) in *.
  rewrite testbit_top;
    [ | lia | replace (8 * e - 1 + 1) with (8 * e) by lia; lia ].
  rewrite <- Z.leb_antisym.
  destruct (Z.leb_spec e 3) as [Hle | Hgt].
  - assert (Hp : 0 < 2 ^ (8 * (3 - e))) by (apply Z.pow_pos_nonneg; lia).
    assert (H23 : 2 ^ 23 = 2 ^ (8 * e - 1) * 2 ^ (8 * (3 - e))).
    { rewrite <- Z.pow_add_r by lia. f_equal. lia. }
    rewrite H23.
    destruct (Z.leb_spec (2 ^ (8 * e - 1)) x) as [H1 | H1];
      symmetry; [ apply Z.leb_le | apply Z.leb_gt ].
    + apply Z.mul_le_mono_nonneg_r; lia.
    + apply Z.mul_lt_mono_pos_r; lia.
  - assert (Hp : 0 < 2 ^ (8 * (e - 3))) by (apply Z.pow_pos_nonneg; lia).
    assert (H23 : 2 ^ (8 * e - 1) = 2 ^ (8 * (e - 3)) * 2 ^ 23).
    { rewrite <- Z.pow_add_r by lia. f_equal. lia. }
    rewrite H23.
    destruct (Z.leb_spec (2 ^ (8 * (e - 3)) * 2 ^ 23) x) as [H1 | H1];
      symmetry; [ apply Z.leb_le | apply Z.leb_gt ].
    + apply Z.div_le_lower_bound; lia.
    + apply Z.div_lt_upper_bound; lia.
Qed.

(** What survives the round trip: [x] with its dropped bits cleared. *)
Lemma roundtrip_pos (x : Z) :
  0 < x -> BN.byteLength x <= 32 ->
  fromCompact (toCompact x)
  = Z.shiftl (Z.shiftr x (dropped_bits x)) (dropped_bits x).
Proof.
  intros Hx H32.
  destruct (byteLength_bounds x Hx) as [He _].
  pose proof (leading_bytes_bounds x Hx) as Hm.
  rewrite (toCompact_pos x Hx H32).
  unfold dropped_bits, compact_exponent.
  rewrite (leading_bit_spec x Hx).
  destruct (Z.ltb_spec (leading_bytes x) (2 ^ 23)) as [Hlt | Hge];
    cbn [negb].
  - rewrite fromCompact_pack by lia.
    unfold leading_bytes. set (e := BN.byteLength x) in *.
    destruct (Z.leb_spec e 3) as [Hle | Hgt].
    + replace (8 * Z.max 0 (e + 0 - 3)) with 0 by lia.
      rewrite Z.shiftr_0_r, Z.shiftl_0_r.
      apply Z.div_mul. apply Z.pow_nonzero; lia.
    + replace (8 * Z.max 0 (e + 0 - 3)) with (8 * (e - 3)) by lia.
      rewrite Z.shiftl_mul_pow2, Z.shiftr_div_pow2 by lia. reflexivity.
  - assert (Hm8 : 2 ^ 15 <= leading_bytes x / 2 ^ 8 < 2 ^ 16).
    { split; [ apply Z.div_le_lower_bound | apply Z.div_lt_upper_bound ];
        lia. }
    rewrite fromCompact_pack by lia.
    unfold leading_bytes. set (e := BN.byteLength x) in *.
    destruct (Z.leb_spec (e + 1) 3) as [Hle1 | Hgt1].
    + replace (8 * Z.max 0 (e + 1 - 3)) with 0 by lia.
      rewrite Z.shiftr_0_r, Z.shiftl_0_r.
      destruct (Z.leb_spec e 3) as [_ | ?]; [ | lia ].
      rewrite Z.div_div by (try apply Z.pow_pos_nonneg; lia).
      rewrite <- Z.pow_add_r by lia.
      replace (8 + 8 * (3 - (e + 1))) with (8 * (3 - e)) by lia.
      apply Z.div_mul. apply Z.pow_nonzero; lia.
    + replace (8 * Z.max 0 (e + 1 - 3)) with (8 * (e + 1 - 3)) by lia.
      rewrite Z.shiftl_mul_pow2, Z.shiftr_div_pow2 by lia. f_equal.
      destruct (Z.leb_spec e 3) as [Hle | Hgt].
      * replace (8 * (3 - e)) with 0 by lia.
        replace (8 * (e + 1 - 3)) with 8 by lia.
        rewrite Z.pow_0_r, Z.mul_1_r. reflexivity.
      * rewrite Z.div_div by (try apply Z.pow_pos_nonneg; lia).
        rewrite <- Z.pow_add_r by lia. do 2 f_equal. lia.
Qed.

(** C3, as the code has it: for a non-negative [x] of at most 32 bytes
    the round trip returns [x] with its dropped bits cleared (the compact
    form holds three bytes of mantissa, two when the leading bit is set);
    the result never exceeds [x], and it is [x] exactly when the dropped
    bits of [x] are all zero. *)
Theorem compact_roundtrip_truncates (x : Z) :
  0 <= x -> BN.byteLength x <= 32 ->
  fromCompact (toCompact x)
  = Z.shiftl (Z.shiftr x (dropped_bits x)) (dropped_bits x)
  /\ fromCompact (toCompact x) <= x
  /\ (fromCompact (toCompact x) = x <-> x mod 2 ^ dropped_bits x = 0).
Proof.
  intros Hx H32.
  assert (Hd : 0 <= dropped_bits x) by (unfold dropped_bits; lia).
  assert (Hr : fromCompact (toCompact x)
               = Z.shiftl (Z.shiftr x (dropped_bits x)) (dropped_bits x)).
  { destruct (Z.eq_dec x 0) as [-> | Hnz]; [ reflexivity | ].
    apply roundtrip_pos; lia. }
  split; [ exact Hr | ].
  rewrite Hr, Z.shiftl_mul_pow2, Z.shiftr_div_pow2 by lia.
  assert (Hp : 0 < 2 ^ dropped_bits x) by (apply Z.pow_pos_nonneg; lia).
  pose proof (Z.div_mod x (2 ^ dropped_bits x) ltac:(lia)) as Hdm.
  pose proof (Z.mod_pos_bound x (2 ^ dropped_bits x) Hp) as Hmb.
  split; [ lia | split; lia ].
Qed.

Lemma compact_roundtrip_truncates_witness :
  fromCompact (toCompact 0x01020304)
  = Z.shiftl (Z.shiftr 0x01020304 (dropped_bits 0x01020304))
      (dropped_bits 0x01020304)
  /\ fromCompact (toCompact 0x01020304) <= 0x01020304
  /\ (fromCompact (toCompact 0x01020304) = 0x01020304
      <-> 0x01020304 mod 2 ^ dropped_bits 0x01020304 = 0).
Proof.
  apply (compact_roundtrip_truncates 0x01020304); [ lia | vm_compute; discriminate ].
Defined.

(** C3, as stated, fails: 0x01020304 is non-negative and four bytes
    long, and its round trip is 0x01020300. *)
Lemma compact_roundtrip_lossy :
  ~ (forall x : Z,
       0 <= x -> BN.byteLength x <= 32 -> fromCompact (toCompact x) = x).
Proof.
  intros H.
  specialize (H 0x01020304 ltac:(lia) ltac:(vm_compute; discriminate)).
  vm_compute in H. discriminate H.
Qed.

(** ** The scenarios of the specification *)

Example compact_1d00ffff :
  fromCompact 0x1d00ffff = 0xffff * 2 ^ 208 /\
  toCompact (fromCompact 0x1d00ffff) = 0x1d00ffff.
Proof. split; reflexivity. Qed.

Example pow_accept (network : Network) (block : AbstractBlock) :
  verifyPOW network block (x01 :: repeat x00 31) 0x207fffff = true.
Proof. reflexivity. Qed.

Example pow_reject (network : Network) (block : AbstractBlock) :
  verifyPOW network block (repeat xff 32) 0x207fffff = false.
Proof. reflexivity. Qed.

Example subsidy_boundaries :
  getReward 0 tt = Some (12226641 * COIN) /\
  getReward 1 tt = Some (12226641 * COIN) /\
  getReward 2 tt = Some (1 * COIN) /\
  getReward 6765 tt = Some (1 * COIN) /\
  getReward 46368 tt = Some (5 * COIN) /\
  getReward 514229 tt = Some (55 * COIN) /\
  getReward 24157818 tt = Some 0 /\
  getReward (-1) tt = None.
Proof. repeat split; reflexivity. Qed.

(** * Further properties of the consensus functions *)

(** ** Decoding any 32-bit compact number *)

(** Masking with low ones keeps the low bits, whatever the sign of the
    32-bit reading. *)
Lemma and_ones (c n : Z) :
  0 <= n < 32 -> JS.and c (Z.ones n) = c mod 2 ^ n.
Proof.
  intros Hn. unfold JS.and.
  assert (Hp : 0 < 2 ^ n <= 2 ^ 31).
  { split; [ apply Z.pow_pos_nonneg; lia | apply Z.pow_le_mono_r; lia ]. }
  rewrite (ToInt32_small (Z.ones n)) by (rewrite Z.ones_equiv; lia).
  rewrite Z.land_ones by lia.
  assert (Hdiv : (2 ^ n | 2 ^ 32)).
  { exists (2 ^ (32 - n)). rewrite <- Z.pow_add_r by lia. f_equal. lia. }
  rewrite <- (Z.mod_mod_divide (JS.ToInt32 c) (2 ^ 32) (2 ^ n) Hdiv).
  rewrite ToInt32_mod. apply Z.mod_mod_divide. exact Hdiv.
Qed.

(** The parts of a compact number. *)
Lemma compact_parts (c : Z) :
  0 <= c < 2 ^ 32 ->
  JS.shr c 24 = c / 2 ^ 24 /\
  JS.and (JS.shr c 23) 1 = (if Z.testbit c 23 then 1 else 0) /\
  JS.and c 0x7fffff = c mod 2 ^ 23.
Proof.
  intros Hc. split; [ apply shr_small; lia | split ].
  - rewrite shr_small by lia.
    assert (H23 : 0 <= c / 2 ^ 23 < 2 ^ 9).
    { split; [ apply Z.div_pos | apply Z.div_lt_upper_bound ]; lia. }
    rewrite and_small by lia.
    change 1 with (Z.ones 1) at 1. rewrite Z.land_ones by lia.
    change (2 ^ 1) with 2.
    destruct (Z.testbit c 23) eqn:Hb.
    + apply Z.testbit_true in Hb; lia.
    + apply Z.testbit_false in Hb; lia.
  - change 0x7fffff with (Z.ones 23). apply and_ones. lia.
Qed.

Lemma fromCompact_decode (c : Z) :
  0 <= c < 2 ^ 32 ->
  fromCompact c
  = (if Z.testbit c 23 then - compact_magnitude c else compact_magnitude c)
  /\ 0 <= compact_magnitude c.
Proof.
  intros Hc. unfold compact_magnitude.
  set (e := c / 2 ^ 24). set (m := c mod 2 ^ 23).
  destruct (compact_parts c Hc) as (He & Hn & Hm).
  assert (Hmr : 0 <= m < 2 ^ 23) by (apply Z.mod_pos_bound; lia).
  assert (He0 : 0 <= e) by (apply Z.div_pos; lia).
  split.
  - unfold fromCompact, BN.of_number, BN.ineg.
    destruct (Z.eqb_spec c 0) as [-> | Hnz]; [ reflexivity | ].
    cbv zeta. rewrite He, Hn, Hm. fold e m.
    destruct (Z.leb_spec e 3) as [Hle | Hgt].
    + rewrite shr_small by lia. destruct (Z.testbit c 23); reflexivity.
    + unfold BN.iushln. rewrite Z.abs_eq, Z.shiftl_mul_pow2 by lia.
      assert (Hs : Z.sgn m * (m * 2 ^ (8 * (e - 3))) = m * 2 ^ (8 * (e - 3))).
      { destruct (Z.eq_dec m 0) as [Hm0 | Hm0].
        - rewrite Hm0. reflexivity.
        - rewrite Z.sgn_pos by lia. lia. }
      rewrite Hs. destruct (Z.testbit c 23); reflexivity.
  - destruct (Z.leb_spec e 3).
    + apply Z.div_pos; [ lia | apply Z.pow_pos_nonneg; lia ].
    + apply Z.mul_nonneg_nonneg; [ lia | apply Z.pow_nonneg; lia ].
Qed.

(** X1: for every 32-bit [c], [fromCompact c] is the mantissa (the low 23
    bits) shifted by the exponent (the top byte) -- right by [8 (3 - e)]
    bits when [e <= 3], left by [8 (e - 3)] otherwise -- and negated when
    bit 23 is set; so it is zero exactly when the shifted mantissa is, and
    negative exactly when bit 23 is set and the shifted mantissa is not
    zero. *)
Theorem fromCompact_u32 (c : Z) :
  0 <= c < 2 ^ 32 ->
  fromCompact c
  = (if Z.testbit c 23 then - compact_magnitude c else compact_magnitude c)
  /\ 0 <= compact_magnitude c
  /\ (fromCompact c = 0 <-> compact_magnitude c = 0)
  /\ (fromCompact c < 0
      <-> Z.testbit c 23 = true /\ 0 < compact_magnitude c).
Proof.
  intros Hc. destruct (fromCompact_decode c Hc) as [Hf Hm].
  split; [ exact Hf | ]. split; [ exact Hm | ].
  rewrite Hf. destruct (Z.testbit c 23); split; lia.
Qed.

Lemma fromCompact_u32_witness :
  fromCompact 0x04923456
  = (if Z.testbit 0x04923456 23
     then - compact_magnitude 0x04923456
     else compact_magnitude 0x04923456)
  /\ 0 <= compact_magnitude 0x04923456
  /\ (fromCompact 0x04923456 = 0 <-> compact_magnitude 0x04923456 = 0)
  /\ (fromCompact 0x04923456 < 0
      <-> Z.testbit 0x04923456 23 = true /\ 0 < compact_magnitude 0x04923456).
Proof. apply (fromCompact_u32 0x04923456). lia. Defined.

(** ** Proof of work, by the fields of [bits] *)

(** X2: for 32-bit [bits], [verifyPOW] accepts a hash exactly when bit 23
    of [bits] is clear, the shifted mantissa is positive, and the
    little-endian reading of the hash does not exceed it; a [bits] with
    the sign bit set or a zero mantissa is rejected for every hash. *)
Theorem verifyPOW_fields (network : Network) (block : AbstractBlock)
    (hash : list byte) (bits : Z) :
  0 <= bits < 2 ^ 32 ->
  (verifyPOW network block hash bits = true
   <-> Z.testbit bits 23 = false /\
       0 < compact_magnitude bits /\
       le_value hash <= compact_magnitude bits).
Proof.
  intros Hb. destruct (fromCompact_decode bits Hb) as [Hf Hm].
  pose proof (le_value_nonneg hash) as Hh.
  unfold verifyPOW, BN.isNeg, BN.isZero, BN.gt.
  rewrite of_le_value, Z.gtb_ltb, Hf.
  destruct (Z.testbit bits 23).
  - destruct (Z.ltb_spec (- compact_magnitude bits) 0),
             (Z.eqb_spec (- compact_magnitude bits) 0);
      cbn [orb]; try lia; (split; [ discriminate | intros [H' _]; discriminate ]).
  - destruct (Z.ltb_spec (compact_magnitude bits) 0),
             (Z.eqb_spec (compact_magnitude bits) 0),
             (Z.ltb_spec (compact_magnitude bits) (le_value hash));
      cbn [orb]; try lia;
      (split; [ try discriminate; intros _; repeat split; lia
              | try reflexivity; intros (_ & ? & ?); lia ]).
Qed.

Lemma verifyPOW_fields_witness :
  verifyPOW sample_network (mkBlock false) (x01 :: repeat x00 31) 0x207fffff
  = true
  <-> Z.testbit 0x207fffff 23 = false /\
      0 < compact_magnitude 0x207fffff /\
      le_value (x01 :: repeat x00 31) <= compact_magnitude 0x207fffff.
Proof.
  apply (verifyPOW_fields sample_network (mkBlock false)
           (x01 :: repeat x00 31) 0x207fffff).
  lia.
Defined.

Lemma le_value_bound (buf : list byte) :
  le_value buf < 256 ^ Z.of_nat (length buf).
Proof.
  rewrite <- of_le_value.
  induction buf as [ | b rest IH]; [ reflexivity | ].
  cbn [BN.of_le length]. rewrite Nat2Z.inj_succ, Z.pow_succ_r by lia.
  pose proof (Byte.to_N_bounded b). lia.
Qed.

(** X3: no upper limit on the target is enforced: when the decoded target
    is [2^256] or more, every 32-byte hash is accepted, whatever the
    limits of the network and the version of the block. *)
Theorem verifyPOW_no_limit (network : Network) (block : AbstractBlock)
    (hash : list byte) (bits : Z) :
  length hash = 32%nat -> 2 ^ 256 <= fromCompact bits ->
  verifyPOW network block hash bits = true.
Proof.
  intros Hlen Hbig. pose proof (le_value_bound hash) as Hb.
  rewrite Hlen in Hb. change (256 ^ Z.of_nat 32) with (2 ^ 256) in Hb.
  unfold verifyPOW, BN.isNeg, BN.isZero, BN.gt.
  rewrite of_le_value, Z.gtb_ltb.
  destruct (Z.ltb_spec (fromCompact bits) 0),
           (Z.eqb_spec (fromCompact bits) 0),
           (Z.ltb_spec (fromCompact bits) (le_value hash));
    cbn [orb]; try reflexivity; lia.
Qed.

Lemma verifyPOW_no_limit_witness :
  verifyPOW sample_network (mkBlock true) (repeat xff 32) 0x22000100 = true.
Proof.
  apply (verifyPOW_no_limit sample_network (mkBlock true) (repeat xff 32)
           0x22000100).
  - reflexivity.
  - vm_compute. discriminate.
Defined.

(** ** Normalised compact numbers *)

Lemma byteLength_unique (x e : Z) :
  1 <= e -> 2 ^ (8 * (e - 1)) <= x < 2 ^ (8 * e) -> BN.byteLength x = e.
Proof.
  intros He [Hlo Hhi].
  assert (Hx : 0 < x).
  { apply Z.lt_le_trans with (2 ^ (8 * (e - 1))); [ | exact Hlo ].
    apply Z.pow_pos_nonneg; lia. }
  destruct (byteLength_bounds x Hx) as (He' & Hlo' & Hhi').
  set (e' := BN.byteLength x) in *.
  destruct (Z.lt_trichotomy e' e) as [Hlt | [Heq | Hgt]]; [ | exact Heq | ].
  - assert (2 ^ (8 * e') <= 2 ^ (8 * (e - 1)))
      by (apply Z.pow_le_mono_r; lia).
    lia.
  - assert (2 ^ (8 * e) <= 2 ^ (8 * (e' - 1)))
      by (apply Z.pow_le_mono_r; lia).
    lia.
Qed.

(** Encoding a number given as a normalised mantissa and an exponent. *)
Lemma toCompact_norm (E m : Z) :
  3 <= E <= 33 -> 2 ^ 15 <= m < 2 ^ 23 -> (E = 33 -> m < 2 ^ 16) ->
  toCompact (m * 2 ^ (8 * (E - 3))) = E * 2 ^ 24 + m.
Proof.
  intros HE Hm H33.
  set (P := 2 ^ (8 * (E - 3))).
  assert (HP : 0 < P) by (apply Z.pow_pos_nonneg; lia).
  assert (Hx : 0 < m * P) by (apply Z.mul_pos_pos; lia).
  destruct (Z.lt_ge_cases m (2 ^ 16)) as [Hsmall | Hbig].
  - assert (Hbl : BN.byteLength (m * P) = E - 1).
    { apply byteLength_unique; [ lia | ].
      replace (2 ^ (8 * (E - 1 - 1))) with (2 ^ 8 * P)
        by (unfold P; rewrite <- Z.pow_add_r by lia; f_equal; lia).
      replace (2 ^ (8 * (E - 1))) with (2 ^ 16 * P)
        by (unfold P; rewrite <- Z.pow_add_r by lia; f_equal; lia).
      split; [ apply Z.mul_le_mono_nonneg_r | apply Z.mul_lt_mono_pos_r ];
        lia. }
    assert (Hlb : leading_bytes (m * P) = m * 2 ^ 8).
    { unfold leading_bytes. rewrite Hbl.
      destruct (Z.leb_spec (E - 1) 3) as [Hle | Hgt].
      - rewrite <- Z.mul_assoc. f_equal. unfold P.
        rewrite <- Z.pow_add_r by lia. f_equal. lia.
      - replace P with (2 ^ 8 * 2 ^ (8 * (E - 1 - 3)))
          by (unfold P; rewrite <- Z.pow_add_r by lia; f_equal; lia).
        rewrite Z.mul_assoc. apply Z.div_mul.
        apply Z.pow_nonzero; lia. }
    rewrite toCompact_pos by lia. rewrite Hlb, Hbl.
    destruct (Z.ltb_spec (m * 2 ^ 8) (2 ^ 23)) as [? | _]; [ lia | ].
    rewrite Z.div_mul by lia. f_equal. lia.
  - assert (Hbl : BN.byteLength (m * P) = E).
    { apply byteLength_unique; [ lia | ].
      replace (2 ^ (8 * (E - 1))) with (2 ^ 16 * P)
        by (unfold P; rewrite <- Z.pow_add_r by lia; f_equal; lia).
      replace (2 ^ (8 * E)) with (2 ^ 24 * P)
        by (unfold P; rewrite <- Z.pow_add_r by lia; f_equal; lia).
      split; [ apply Z.mul_le_mono_nonneg_r | apply Z.mul_lt_mono_pos_r ];
        lia. }
    assert (Hlb : leading_bytes (m * P) = m).
    { unfold leading_bytes. rewrite Hbl.
      destruct (Z.leb_spec E 3) as [Hle | Hgt].
      - assert (HE3 : E = 3) by lia. unfold P. rewrite HE3.
        change (2 ^ (8 * (3 - 3))) with 1. lia.
      - apply Z.div_mul. lia. }
    rewrite toCompact_pos by lia. rewrite Hlb, Hbl.
    destruct (Z.ltb_spec m (2 ^ 23)) as [_ | ?]; [ reflexivity | lia ].
Qed.

(** X4: encoding undoes decoding on normalised compact numbers: with the
    sign bit clear, an exponent from 3 to 32 and a mantissa of at least
    [0x008000], [toCompact (fromCompact c)] is [c]. *)
Theorem toCompact_fromCompact (E m : Z) :
  3 <= E <= 32 -> 2 ^ 15 <= m < 2 ^ 23 ->
  toCompact (fromCompact (E * 2 ^ 24 + m)) = E * 2 ^ 24 + m.
Proof.
  intros HE Hm. rewrite fromCompact_pack by lia.
  destruct (Z.leb_spec E 3) as [Hle | Hgt].
  - assert (HE3 : E = 3) by lia. rewrite HE3.
    change (2 ^ (8 * (3 - 3))) with 1. rewrite Z.div_1_r.
    rewrite <- (toCompact_norm 3 m) by lia.
    change (2 ^ (8 * (3 - 3))) with 1. f_equal. lia.
  - apply toCompact_norm; lia.
Qed.

Lemma toCompact_fromCompact_witness :
  toCompact (fromCompact (0x1d * 2 ^ 24 + 0x00ffff)) = 0x1d * 2 ^ 24 + 0x00ffff.
Proof. apply (toCompact_fromCompact 0x1d 0x00ffff); lia. Defined.

(** The shape of what [toCompact] returns. *)
Lemma toCompact_shape (x : Z) :
  0 < x -> BN.byteLength x <= 32 ->
  exists m,
    toCompact x = compact_exponent x * 2 ^ 24 + m /\
    2 ^ 15 <= m < 2 ^ 23 /\
    (leading_bit x = true -> m < 2 ^ 16).
Proof.
  intros Hx H32. pose proof (leading_bytes_bounds x Hx) as Hm.
  rewrite (toCompact_pos x Hx H32). unfold compact_exponent.
  rewrite (leading_bit_spec x Hx).
  destruct (Z.ltb_spec (leading_bytes x) (2 ^ 23)) as [Hlt | Hge];
    cbn [negb].
  - exists (leading_bytes x). split; [ f_equal; lia | ].
    split; [ lia | discriminate ].
  - exists (leading_bytes x / 2 ^ 8). split; [ reflexivity | ].
    assert (2 ^ 15 <= leading_bytes x / 2 ^ 8 < 2 ^ 16).
    { split; [ apply Z.div_le_lower_bound | apply Z.div_lt_upper_bound ];
        lia. }
    split; [ lia | intros _; lia ].
Qed.

(** X5: for a positive [x] of at most 32 bytes, [toCompact x] is a
    normalised compact number: its top byte is the byte length of [x]
    (one more when the leading bit of [x] is set), bit 23 -- the sign --
    is clear, and the 23-bit mantissa is at least [0x008000]. *)
Theorem toCompact_normalised (x : Z) :
  0 < x -> BN.byteLength x <= 32 ->
  toCompact x / 2 ^ 24 = compact_exponent x /\
  Z.testbit (toCompact x) 23 = false /\
  2 ^ 15 <= toCompact x mod 2 ^ 23 < 2 ^ 23 /\
  0 < toCompact x < 2 ^ 32.
Proof.
  intros Hx H32.
  destruct (toCompact_shape x Hx H32) as (m & Ht & Hm & _).
  destruct (byteLength_bounds x Hx) as [He _].
  assert (HE : 1 <= compact_exponent x <= 33).
  { unfold compact_exponent. destruct (leading_bit x); lia. }
  rewrite Ht. set (E := compact_exponent x) in *.
  assert (H1 : (E * 2 ^ 24 + m) / 2 ^ 24 = E).
  { rewrite Z.div_add_l by lia. rewrite Z.div_small by lia. lia. }
  assert (H2 : (E * 2 ^ 24 + m) / 2 ^ 23 = 2 * E).
  { replace (E * 2 ^ 24) with (2 * E * 2 ^ 23) by lia.
    rewrite Z.div_add_l by lia. rewrite Z.div_small by lia. lia. }
  assert (H3 : (E * 2 ^ 24 + m) mod 2 ^ 23 = m).
  { replace (E * 2 ^ 24) with (2 * E * 2 ^ 23) by lia.
    rewrite Z.add_comm, Z.mod_add by lia. apply Z.mod_small. lia. }
  split; [ exact H1 | ]. split; [ | rewrite H3; lia ].
  apply Z.testbit_false; [ lia | ]. rewrite H2.
  rewrite Z.mul_comm. apply Z.mod_mul. lia.
Qed.

Lemma toCompact_normalised_witness :
  toCompact 0x80 / 2 ^ 24 = compact_exponent 0x80 /\
  Z.testbit (toCompact 0x80) 23 = false /\
  2 ^ 15 <= toCompact 0x80 mod 2 ^ 23 < 2 ^ 23 /\
  0 < toCompact 0x80 < 2 ^ 32.
Proof.
  apply (toCompact_normalised 0x80); [ lia | vm_compute; discriminate ].
Defined.

(** X6: encoding is stable under a round trip: for a non-negative [x] of
    at most 32 bytes, [toCompact (fromCompact (toCompact x))] is
    [toCompact x], although [fromCompact (toCompact x)] may differ from
    [x]. *)
Theorem toCompact_stable (x : Z) :
  0 <= x -> BN.byteLength x <= 32 ->
  toCompact (fromCompact (toCompact x)) = toCompact x.
Proof.
  intros Hx0 H32.
  destruct (Z.eq_dec x 0) as [-> | Hnz]; [ reflexivity | ].
  assert (Hx : 0 < x) by lia.
  destruct (toCompact_shape x Hx H32) as (m & Ht & Hm & Hlead).
  destruct (byteLength_bounds x Hx) as [He _].
  assert (HE : 1 <= compact_exponent x <= 33).
  { unfold compact_exponent. destruct (leading_bit x); lia. }
  destruct (Z.lt_ge_cases (compact_exponent x) 3) as [Hlow | Hhigh].
  - rewrite (roundtrip_pos x Hx H32). unfold dropped_bits.
    replace (8 * Z.max 0 (compact_exponent x - 3)) with 0 by lia.
    now rewrite Z.shiftr_0_r, Z.shiftl_0_r.
  - rewrite Ht at 1. rewrite fromCompact_pack by lia.
    assert (H33 : compact_exponent x = 33 -> m < 2 ^ 16).
    { intros H. apply Hlead. unfold compact_exponent in H.
      destruct (leading_bit x); [ reflexivity | lia ]. }
    rewrite Ht.
    destruct (Z.leb_spec (compact_exponent x) 3) as [Hle | Hgt].
    + assert (HE3 : compact_exponent x = 3) by lia. rewrite HE3.
      change (2 ^ (8 * (3 - 3))) with 1. rewrite Z.div_1_r.
      rewrite <- (toCompact_norm 3 m) by lia.
      change (2 ^ (8 * (3 - 3))) with 1. f_equal. lia.
    + apply toCompact_norm; lia.
Qed.

Lemma toCompact_stable_witness :
  toCompact (fromCompact (toCompact 0x01020304)) = toCompact 0x01020304.
Proof.
  apply (toCompact_stable 0x01020304); [ lia | vm_compute; discriminate ].
Defined.

(** ** Version bits, any bit index *)

Lemma ToInt32_range (x : Z) : - 2 ^ 31 <= JS.ToInt32 x < 2 ^ 31.
Proof.
  unfold JS.ToInt32.
  pose proof (Z.mod_pos_bound (x + 2 ^ 31) (2 ^ 32) ltac:(lia)). lia.
Qed.

(** Masking a 32-bit integer with its sign bit tests that bit. *)
Lemma land_sign_eqb (a : Z) :
  - 2 ^ 31 <= a < 2 ^ 31 ->
  (Z.land a (- 2 ^ 31) =? 0) = negb (Z.testbit a 31).
Proof.
  intros Ha. change (- 2 ^ 31) with (Z.lnot (Z.ones 31)).
  rewrite <- Z.ldiff_land, Z.ldiff_ones_r by lia.
  rewrite Z.shiftl_mul_pow2, Z.shiftr_div_pow2 by lia.
  destruct (Z.lt_ge_cases a 0) as [Hneg | Hpos].
  - assert (Hq : a / 2 ^ 31 = - 1).
    { symmetry. apply (Z.div_unique a (2 ^ 31) (- 1) (a + 2 ^ 31)); lia. }
    rewrite Hq. assert (Hb : Z.testbit a 31 = true).
    { apply Z.testbit_true; [ lia | ]. rewrite Hq. reflexivity. }
    rewrite Hb. reflexivity.
  - rewrite Z.div_small by lia.
    assert (Hb : Z.testbit a 31 = false).
    { apply Z.testbit_false; [ lia | ]. now rewrite Z.div_small by lia. }
    rewrite Hb. reflexivity.
Qed.

(** X7: for a 32-bit [version] and any integer [bit], the index is taken
    modulo 32 (as the shift of JavaScript does), and [hasBit] holds
    exactly when the top three bits of [version] are [001] and that bit
    of [version] is set; so bits 30 and 31 never test true. *)
Theorem hasBit_any_bit (version bit : Z) :
  0 <= version < 2 ^ 32 ->
  hasBit version bit
  = (Z.land version 0xE0000000 =? 0x20000000)
    && Z.testbit version (bit mod 32)
  /\ hasBit version (bit + 32) = hasBit version bit
  /\ hasBit version 30 = false
  /\ hasBit version 31 = false.
Proof.
  intros Hv.
  assert (Hgen : forall b,
    hasBit version b
    = (Z.land version 0xE0000000 =? 0x20000000)
      && Z.testbit version (b mod 32)).
  { intros b. unfold hasBit, VERSION_TOP_MASK, VERSION_TOP_BITS.
    assert (Hbits : JS.shr (JS.and version 0xe0000000) 0
                    = Z.land version 0xe0000000).
    { unfold JS.shr. rewrite shift_count_small, Z.shiftr_0_r by lia.
      apply and_uint32; lia. }
    rewrite Hbits. f_equal.
    assert (Hk : JS.shift_count b = b mod 32).
    { unfold JS.shift_count, JS.ToUint32. apply Z.mod_mod_divide.
      exists (2 ^ 27). reflexivity. }
    pose proof (Z.mod_pos_bound b 32 ltac:(lia)) as Hkr.
    unfold JS.shl, JS.and. rewrite Hk.
    set (k := b mod 32) in *.
    rewrite (ToInt32_small 1), Z.shiftl_mul_pow2, Z.mul_1_l by lia.
    rewrite (ToInt32_small (JS.ToInt32 (2 ^ k))) by apply ToInt32_range.
    destruct (Z.eq_dec k 31) as [-> | Hk31].
    - change (JS.ToInt32 (2 ^ 31)) with (- 2 ^ 31).
      rewrite land_sign_eqb by apply ToInt32_range.
      rewrite negb_involutive. apply ToInt32_testbit. lia.
    - assert (Hp : 0 < 2 ^ k < 2 ^ 31).
      { split; [ apply Z.pow_pos_nonneg | apply Z.pow_lt_mono_r ]; lia. }
      rewrite (ToInt32_small (2 ^ k)) by lia.
      rewrite land_pow2_eqb, negb_involutive by lia.
      apply ToInt32_testbit. lia. }
  split; [ apply Hgen | ]. split.
  - rewrite !Hgen. do 2 f_equal.
    rewrite <- (Z.mul_1_l 32) at 1. apply Z.mod_add. lia.
  - rewrite !Hgen. change (30 mod 32) with 30. change (31 mod 32) with 31.
    assert (Htop : forall n, 30 <= n < 32 ->
              (Z.land version 0xE0000000 =? 0x20000000)
              && Z.testbit version n = false).
    { intros n Hn.
      destruct (Z.eqb_spec (Z.land version 0xE0000000) 0x20000000)
        as [He | _]; [ | reflexivity ].
      cbn [andb].
      assert (Hb : Z.testbit (Z.land version 0xE0000000) n = false).
      { rewrite He. change 0x20000000 with (2 ^ 29).
        apply Z.pow2_bits_false. lia. }
      rewrite Z.land_spec in Hb.
      assert (Hm : Z.testbit 0xE0000000 n = true).
      { assert (n = 30 \/ n = 31) as [-> | ->] by lia; reflexivity. }
      rewrite Hm, andb_true_r in Hb. exact Hb. }
    split; apply Htop; lia.
Qed.

Lemma hasBit_any_bit_witness :
  hasBit 0x20000001 32
  = (Z.land 0x20000001 0xE0000000 =? 0x20000000)
    && Z.testbit 0x20000001 (32 mod 32)
  /\ hasBit 0x20000001 (32 + 32) = hasBit 0x20000001 32
  /\ hasBit 0x20000001 30 = false
  /\ hasBit 0x20000001 31 = false.
Proof. apply (hasBit_any_bit 0x20000001 32). lia. Defined.

(** ** The subsidy as a table, and its sum *)

(** The band a height falls in decides both the chain of tests of the
    code and the table. *)
Ltac code_band h :=
  repeat (band_case; [ exfalso; lia | ]);
  first
    [ band_hit
    | solve [ destruct (Z.ltb_spec h 2); [ reflexivity | exfalso; lia ] ]
    | solve [ destruct (Z.ltb_spec h 2); [ exfalso; lia | reflexivity ] ] ].

Ltac table_band h :=
  unfold subsidy_schedule;
  repeat
    match goal with
    | |- context [h <=? ?b] => destruct (Z.leb_spec h b); try lia
    end.

Lemma getReward_schedule (I : Type) (h : Z) (i : I) :
  getReward h i = if h <? 0 then None else Some (subsidy_schedule h).
Proof.
  unfold getReward. rewrite Z.geb_leb.
  destruct (Z.ltb_spec h 0) as [Hneg | Hpos].
  { destruct (Z.leb_spec 0 h); [ lia | reflexivity ]. }
  destruct (Z.leb_spec 0 h); [ | lia ].
  cbn [negb]. cbv zeta. f_equal.
  assert (Hcase :
    h <= 1 \/ 1 < h <= 6765 \/ 6765 < h <= 10946 \/ 10946 < h <= 17711 \/
    17711 < h <= 28657 \/ 28657 < h <= 46368 \/ 46368 < h <= 75025 \/
    75025 < h <= 121393 \/ 121393 < h <= 196148 \/ 196148 < h <= 317811 \/
    317811 < h <= 514229 \/ 514229 < h <= 832040 \/
    832040 < h <= 1346269 \/ 1346269 < h <= 2178309 \/
    2178309 < h <= 3524578 \/ 3524578 < h <= 5702887 \/
    5702887 < h <= 9227465 \/ 9227465 < h <= 14930352 \/
    14930352 < h <= 24157817 \/ 24157817 < h) by lia.
  repeat (destruct Hcase as [Hc | Hcase]);
    (etransitivity; [ code_band h | table_band h ]).
Qed.

(** X8: [getReward] fails exactly on negative heights, and on the others
    it is the table read top down with the bounds of the code: the premine
    up to height 1, then 1, 1, 2, 3, 5, 8, 13 COIN up to 121393, 21 COIN
    up to 196148, 34 COIN up to 317811, 55 COIN up to 514229, and 34, 21,
    13, 8, 5, 3, 2, 1 COIN down to height 24157817, nothing above. *)
Theorem getReward_table (I : Type) (h : Z) (i : I) :
  (getReward h i = None <-> h < 0) /\
  (getReward h i = if h <? 0 then None else Some (subsidy_schedule h)).
Proof.
  split; [ | apply getReward_schedule ].
  rewrite getReward_schedule.
  destruct (Z.ltb_spec h 0); split; try lia; try discriminate; reflexivity.
Qed.

Lemma subsidy_at_schedule (h : Z) :
  0 <= h -> subsidy_at h = subsidy_schedule h.
Proof.
  intros Hh. unfold subsidy_at. rewrite getReward_schedule.
  destruct (Z.ltb_spec h 0); [ lia | reflexivity ].
Qed.

Lemma subsidy_at_nonneg (h : Z) : 0 <= subsidy_at h.
Proof.
  unfold subsidy_at. rewrite getReward_schedule.
  destruct (Z.ltb_spec h 0); [ lia | ].
  cbv iota beta. unfold subsidy_schedule, COIN.
  repeat
    match goal with
    | |- context [h <=? ?b] => destruct (Z.leb_spec h b); try lia
    end.
Qed.

(** Paying a run of blocks that all get the same subsidy. *)
Lemma iter_band (c : Z) (n : N) :
  forall acc a : Z,
    (forall h, a <= h < a + Z.of_N n -> subsidy_at h = c) ->
    N.iter n issue_step (acc, a) = (acc + Z.of_N n * c, a + Z.of_N n).
Proof.
  induction n as [ | n IH] using N.peano_ind; intros acc a Hband.
  - cbn. f_equal; lia.
  - rewrite N.iter_succ, IH by (intros h Hh; apply Hband; lia).
    unfold issue_step. cbn [fst snd]. rewrite Hband by lia.
    f_equal; lia.
Qed.

Lemma iter_band_then (c : Z) (m n : N) (acc a : Z) :
  (forall h, a <= h < a + Z.of_N n -> subsidy_at h = c) ->
  N.iter (m + n) issue_step (acc, a)
  = N.iter m issue_step (acc + Z.of_N n * c, a + Z.of_N n).
Proof.
  intros Hband. now rewrite N.iter_add, (iter_band c n acc a Hband).
Qed.

Lemma iter_grows (n : N) (st : Z * Z) :
  fst st <= fst (N.iter n issue_step st).
Proof.
  induction n as [ | n IH] using N.peano_ind; [ cbn; lia | ].
  rewrite N.iter_succ. unfold issue_step at 1. cbn [fst].
  pose proof (subsidy_at_nonneg (snd (N.iter n issue_step st))). lia.
Qed.

(** A run of blocks whose heights all fall in one band of the table. *)
Ltac schedule_run :=
  let h := fresh "h" in
  let Hh := fresh "Hh" in
  intros h Hh; cbn in Hh;
  rewrite subsidy_at_schedule by lia;
  unfold subsidy_schedule;
  repeat
    match goal with
    | |- context [h <=? ?b] => destruct (Z.leb_spec h b); try lia
    end.

Lemma issued_schedule :
  N.iter 24157818 issue_step (0, 0) = (127230150 * COIN, 24157818).
Proof.
  change 24157818%N
    with (0 + 9227465 + 5702887 + 3524578 + 2178309 + 1346269 + 832040
          + 514229 + 317811 + 196418 + 121663 + 74755 + 46368 + 28657
          + 17711 + 10946 + 6765 + 4181 + 6764 + 2)%N.
  rewrite (iter_band_then (12226641 * COIN)) by schedule_run.
  rewrite (iter_band_then (1 * COIN)) by schedule_run.
  rewrite (iter_band_then (1 * COIN)) by schedule_run.
  rewrite (iter_band_then (2 * COIN)) by schedule_run.
  rewrite (iter_band_then (3 * COIN)) by schedule_run.
  rewrite (iter_band_then (5 * COIN)) by schedule_run.
  rewrite (iter_band_then (8 * COIN)) by schedule_run.
  rewrite (iter_band_then (13 * COIN)) by schedule_run.
  rewrite (iter_band_then (21 * COIN)) by schedule_run.
  rewrite (iter_band_then (34 * COIN)) by schedule_run.
  rewrite (iter_band_then (55 * COIN)) by schedule_run.
  rewrite (iter_band_then (34 * COIN)) by schedule_run.
  rewrite (iter_band_then (21 * COIN)) by schedule_run.
  rewrite (iter_band_then (13 * COIN)) by schedule_run.
  rewrite (iter_band_then (8 * COIN)) by schedule_run.
  rewrite (iter_band_then (5 * COIN)) by schedule_run.
  rewrite (iter_band_then (3 * COIN)) by schedule_run.
  rewrite (iter_band_then (2 * COIN)) by schedule_run.
  rewrite (iter_band_then (1 * COIN)) by schedule_run.
  cbn [N.iter]. f_equal; unfold COIN; reflexivity.
Qed.

(** X9: the subsidies of all blocks add up to 127,230,150 COIN: that is
    the sum over the heights below [n] for every [n >= 24157818], no sum
    over fewer heights exceeds it, and it is more than [MAX_MONEY]
    (115,000,000 COIN). *)
Theorem issued_total (n k : N) :
  issued (24157818 + k) = 127230150 * COIN /\
  0 <= issued n <= 127230150 * COIN /\
  MAX_MONEY < 127230150 * COIN.
Proof.
  assert (Hall : forall j : N, issued (j + 24157818) = 127230150 * COIN).
  { intros j. unfold issued.
    rewrite N.iter_add, issued_schedule.
    rewrite (iter_band 0); [ cbn [fst]; lia | ].
    intros h Hh. rewrite subsidy_at_schedule by lia.
    unfold subsidy_schedule.
    repeat
      match goal with
      | |- context [h <=? ?b] => destruct (Z.leb_spec h b); try lia
      end. }
  split; [ rewrite N.add_comm; apply Hall | ].
  split; [ | unfold MAX_MONEY, COIN; lia ].
  split; [ apply (iter_grows n (0, 0)) | ].
  destruct (N.le_ge_cases n 24157818) as [Hle | Hge].
  - rewrite <- (Hall (24157818 - n)%N).
    replace (24157818 - n + 24157818)%N
      with ((24157818 - n + (24157818 - n)) + n)%N by lia.
    unfold issued. rewrite N.iter_add. apply iter_grows.
  - replace n with ((n - 24157818) + 24157818)%N by lia.
    rewrite Hall. lia.
Qed.

(** ** Precision of the compact form *)

(** X20: the round trip through the compact form loses less than one part
    in [2^15]: for a non-negative [x] of at most 32 bytes, what
    [fromCompact (toCompact x)] falls short of [x] is non-negative and,
    multiplied by [2^15], still at most [fromCompact (toCompact x)]. *)
Theorem compact_precision (x : Z) :
  0 <= x -> BN.byteLength x <= 32 ->
  0 <= x - fromCompact (toCompact x) /\
  2 ^ 15 * (x - fromCompact (toCompact x)) <= fromCompact (toCompact x).
Proof.
  intros Hx0 H32.
  destruct (Z.eq_dec x 0) as [-> | Hnz]; [ split; reflexivity || discriminate | ].
  assert (Hx : 0 < x) by lia.
  pose proof (roundtrip_pos x Hx H32) as Hrt.
  destruct (toCompact_shape x Hx H32) as (m & Ht & Hm & _).
  destruct (byteLength_bounds x Hx) as [He _].
  assert (HE : 1 <= compact_exponent x <= 33).
  { unfold compact_exponent. destruct (leading_bit x); lia. }
  assert (Hd : 0 <= dropped_bits x) by (unfold dropped_bits; lia).
  assert (Hp : 0 < 2 ^ dropped_bits x) by (apply Z.pow_pos_nonneg; lia).
  rewrite Z.shiftl_mul_pow2, Z.shiftr_div_pow2 in Hrt by lia.
  pose proof (Z.div_mod x (2 ^ dropped_bits x) ltac:(lia)) as Hdm.
  pose proof (Z.mod_pos_bound x (2 ^ dropped_bits x) Hp) as Hmb.
  split; [ lia | ].
  destruct (Z.leb_spec (compact_exponent x) 3) as [Hle | Hgt].
  - assert (H0 : dropped_bits x = 0) by (unfold dropped_bits; lia).
    rewrite H0 in *. change (2 ^ 0) with 1 in *.
    rewrite Z.div_1_r in Hrt. lia.
  - assert (Hfc : fromCompact (toCompact x) = m * 2 ^ dropped_bits x).
    { rewrite Ht, fromCompact_pack by lia.
      destruct (Z.leb_spec (compact_exponent x) 3); [ lia | ].
      unfold dropped_bits. do 2 f_equal. lia. }
    rewrite Hfc in *. nia.
Qed.

Lemma compact_precision_witness :
  0 <= 0x01020304 - fromCompact (toCompact 0x01020304) /\
  2 ^ 15 * (0x01020304 - fromCompact (toCompact 0x01020304))
  <= fromCompact (toCompact 0x01020304).
Proof.
  apply (compact_precision 0x01020304); [ lia | vm_compute; discriminate ].
Defined.
